(** * pronto.relationship: the memoizing [Relationship] factory

    A shallow embedding of [src/pronto/relationship.py].  Python objects
    live in a heap and are denoted by their address, so that "the same
    object" is equality of addresses.  The class attribute [_instances]
    is an insertion-ordered dictionary from names to addresses.  Every
    method is a computation in a state-and-exception monad over the pair
    (heap, [_instances]). *)

From Stdlib Require Import String Ascii.
From stdpp Require Import base option list strings gmap.

Local Open Scope string_scope.

(** ** Python values used by the class *)

(** The address of an instance; Python's [id(obj)]. *)
Definition loc := nat.

(** The attributes [__init__] sets on an instance.  The three flags are
    [True], [False] or [None]. *)
Record Relationship := mkRelationship {
  obo_name : string;
  symmetry : option bool;
  transitivity : option bool;
  reflexivity : option bool;
  complementary : string;
  prefix : string;
  direction : string;
  comment : string;
  aliases : list string
}.

(** What [object.__new__] returns has no attribute yet: a heap cell is
    [None] until [__init__] has filled it. *)
Definition instance := option Relationship.

(** The exceptions the module can raise. *)
Inductive exn :=
| KeyError (key : string)
| ValueError (msg : string)
| AttributeError (attr : string).

(** ** [collections.OrderedDict] with string keys *)

Module OrderedDict.

Definition t := list (string * loc).

Definition empty : t := [].

(** [d.get(k)] *)
Fixpoint get (k : string) (d : t) : option loc :=
  match d with
  | [] => None
  | (k', v) :: d' => if String.eqb k k' then Some v else get k d'
  end.

(** [k in d] *)
Definition mem (k : string) (d : t) : bool :=
  match get k d with Some _ => true | None => false end.

(** [d[k] = v]: a key that is present keeps its position and takes the
    new value, a new key goes to the end. *)
Fixpoint set (k : string) (v : loc) (d : t) : t :=
  match d with
  | [] => [(k, v)]
  | (k', v') :: d' =>
      if String.eqb k k' then (k, v) :: d' else (k', v') :: set k v d'
  end.

(** [d.values()], in insertion order *)
Definition values (d : t) : list loc := map snd d.

Definition keys (d : t) : list string := map fst d.

End OrderedDict.

(** ** The interpreter state and the monad of method bodies *)

Record State := mkState {
  heap : list instance;
  _instances : OrderedDict.t
}.

Definition initial : State := mkState [] OrderedDict.empty.

Definition M (A : Type) : Type := State -> (exn + A) * State.

Definition ret {A} (a : A) : M A := fun s => (inr a, s).

Definition raise {A} (e : exn) : M A := fun s => (inl e, s).

Definition bind {A B} (m : M A) (k : A -> M B) : M B :=
  fun s =>
    match m s with
    | (inr a, s') => k a s'
    | (inl e, s') => (inl e, s')
    end.

#[global] Instance M_ret : MRet M := @ret.
#[global] Instance M_bind : MBind M := fun A B k m => bind m k.

Definition get_instances : M OrderedDict.t := fun s => (inr (_instances s), s).

Definition put_instances (d : OrderedDict.t) : M unit :=
  fun s => (inr tt, mkState (heap s) d).

(** [object.__new__(cls)]: a fresh instance without attributes. *)
Definition object_new : M loc :=
  fun s => (inr (length (heap s)), mkState (heap s ++ [None]) (_instances s)).

(** The attribute assignments of [__init__], taken together. *)
Definition set_attrs (self : loc) (r : Relationship) : M unit :=
  fun s => (inr tt, mkState (<[self := Some r]> (heap s)) (_instances s)).

(** [self.<attr>]: fails with [AttributeError] on an instance that was
    never initialised. *)
Definition getattr {A} (self : loc) (name : string)
    (proj : Relationship -> A) : M A :=
  fun s =>
    match heap s !! self with
    | Some (Some r) => (inr (proj r), s)
    | _ => (inl (AttributeError name), s)
    end.

(** [x or ''] and [x or list()] *)
Definition or_empty (x : option string) : string := default "" x.
Definition or_list (x : option (list string)) : list string := default [] x.

(** [x or None] on a flag: [False] is falsy and becomes [None]. *)
Definition or_None (x : option bool) : option bool :=
  match x with Some true => Some true | _ => None end.

(** [str.lower], on the ASCII letters.  The only values it is compared to
    are ["true"] and ["false"], whose letters are the lower case of no
    character outside ASCII. *)
Definition lower_ascii (c : ascii) : ascii :=
  let n := nat_of_ascii c in
  if Nat.leb 65 n && Nat.leb n 90 then ascii_of_nat (n + 32) else c.

Fixpoint lower (s : string) : string :=
  match s with
  | EmptyString => EmptyString
  | String c s' => String (lower_ascii c) (lower s')
  end.

(** ** The class *)

(** The keyword arguments of [Relationship(obo_name, ...)]; every one of
    them defaults to [None]. *)
Record kwargs := mkKwargs {
  kw_symmetry : option bool;
  kw_transitivity : option bool;
  kw_reflexivity : option bool;
  kw_complementary : option string;
  kw_prefix : option string;
  kw_direction : option string;
  kw_comment : option string;
  kw_aliases : option (list string)
}.

Definition no_kwargs : kwargs :=
  mkKwargs None None None None None None None None.

(** [for alias in self.aliases: self._instances[alias] = self] *)
Fixpoint register_aliases (self : loc) (als : list string) : M unit :=
  match als with
  | [] => ret tt
  | alias :: als' =>
      d ← get_instances;
      put_instances (OrderedDict.set alias self d);;
      register_aliases self als'
  end.

(** The attributes [__init__] stores from its arguments (lines 89-97).
    Line 91 reads [self.transitivity = reflexivity]. *)
Definition init_attrs (obo_name : string) (kw : kwargs) : Relationship :=
  {| obo_name := obo_name;
     symmetry := kw_symmetry kw;
     transitivity := kw_reflexivity kw;
     reflexivity := kw_reflexivity kw;
     complementary := or_empty (kw_complementary kw);
     prefix := or_empty (kw_prefix kw);
     direction := or_empty (kw_direction kw);
     comment := or_empty (kw_comment kw);
     aliases := or_list (kw_aliases kw) |}.

Definition __init__ (self : loc) (obo_name : string) (kw : kwargs) : M unit :=
  d ← get_instances;
  if negb (OrderedDict.mem obo_name d) then
    set_attrs self (init_attrs obo_name kw);;
    d ← get_instances;
    put_instances (OrderedDict.set obo_name self d);;
    register_aliases self (or_list (kw_aliases kw))
  else ret tt.

Definition __new__ (obo_name : string) : M loc :=
  d ← get_instances;
  match OrderedDict.get obo_name d with
  | Some r => ret r
  | None => object_new
  end.

(** [Relationship(obo_name, **kw)], that is [type.__call__]: [__new__],
    then [__init__] on what it returned, with the same arguments. *)
Definition Relationship_call (obo_name : string) (kw : kwargs) : M loc :=
  self ← __new__ obo_name;
  __init__ self obo_name kw;;
  ret self.

Definition complement (self : loc) : M (option loc) :=
  c ← getattr self "complementary" complementary;
  if negb (String.eqb c "") then
    d ← get_instances;
    match OrderedDict.get c d with
    | Some r => ret (Some r)
    | None => raise (ValueError "{} has a complementary but it was not defined !")
    end
  else ret None.

(** [r for r in it if r.direction == dir] *)
Fixpoint with_direction (dir : string) (it : list loc) : M (list loc) :=
  match it with
  | [] => ret []
  | r :: it' =>
      d ← getattr r "direction" direction;
      rs ← with_direction dir it';
      ret (if String.eqb d dir then r :: rs else rs)
  end.

(** Modelled from the spec: [pronto.utils.unique_everseen] is imported by
    the module but its definition is not part of the sources at hand.  The
    specification asks for distinct records, "dedup by identity", in
    "first-seen order": every element is kept the first time it is met,
    with a set of the elements seen so far. *)
Fixpoint unique_everseen_from (seen : gset loc) (it : list loc) : list loc :=
  match it with
  | [] => []
  | x :: it' =>
      if decide (x ∈ seen) then unique_everseen_from seen it'
      else x :: unique_everseen_from ({[x]} ∪ seen) it'
  end.

Definition unique_everseen (it : list loc) : list loc :=
  unique_everseen_from ∅ it.

Definition topdown : M (list loc) :=
  d ← get_instances;
  rs ← with_direction "topdown" (OrderedDict.values d);
  ret (unique_everseen rs).

Definition bottomup : M (list loc) :=
  d ← get_instances;
  rs ← with_direction "bottomup" (OrderedDict.values d);
  ret (unique_everseen rs).

(** *** Pickling *)

Definition __getstate__ (self : loc) : M unit := ret tt.

Definition __getnewargs__ (self : loc) : M string :=
  getattr self "obo_name" obo_name.

Definition __setstate__ (self : loc) : M unit := ret tt.

(** [pickle.dumps(self, 2)]: [object.__reduce_ex__] asks for
    [__getnewargs__] and [__getstate__]; the pickle holds the arguments of
    [__new__] and, the state being [None], nothing else. *)
Definition dumps (self : loc) : M string :=
  args ← __getnewargs__ self;
  __getstate__ self;;
  ret args.

(** [pickle.loads]: the [NEWOBJ] instruction calls [cls.__new__(cls, *args)].
    [__init__] is not called, and neither is [__setstate__], since no state
    was pickled. *)
Definition loads (pickled : string) : M loc :=
  __new__ pickled.

(** *** The OBO stanza adapter *)

Definition stanza := gmap string string.

(** [d[k].lower() == v], or [None] on [KeyError] *)
Definition flag (d : stanza) (k v : string) : option bool :=
  match d !! k with
  | Some x => Some (String.eqb (lower x) v)
  | None => None
  end.

Definition _from_obo_dict (d : stanza) : M loc :=
  match d !! "id" with
  | None => raise (KeyError "id")
  | Some id =>
      reg ← get_instances;
      match OrderedDict.get id reg with
      | Some r => ret r
      | None =>
          let complementary := default "" (d !! "inverse_of") in
          let transitivity := flag d "is_transitive" "true" in
          let symmetry := flag d "is_symmetric" "true" in
          let reflexivity := flag d "is_reflexive" "true" in
          let symmetry :=
            match d !! "is_antisymetric" with
            | Some x => Some (String.eqb (lower x) "false")
            | None => or_None symmetry
            end in
          Relationship_call id
            (mkKwargs symmetry transitivity reflexivity (Some complementary)
                      None None None None)
      end
  end.

(** *** The relationships the module registers when it is imported *)

Definition kw_is_a : kwargs :=
  mkKwargs (Some false) (Some true) (Some true) (Some "can_be")
           None (Some "bottomup") None None.

Definition kw_can_be : kwargs :=
  mkKwargs (Some false) (Some true) (Some true) (Some "is_a")
           None (Some "topdown") None None.

Definition kw_has_part : kwargs :=
  mkKwargs (Some false) (Some true) (Some true) (Some "part_of")
           None (Some "topdown") None None.

Definition kw_part_of : kwargs :=
  mkKwargs (Some false) (Some true) (Some true) (Some "has_part")
           None (Some "bottomup") None (Some ["is_part"]).

Definition kw_has_units : kwargs :=
  mkKwargs (Some false) (Some false) None None None None None None.

Definition kw_has_domain : kwargs :=
  mkKwargs (Some false) (Some false) None None None None None None.

Definition module_body : M unit :=
  Relationship_call "is_a" kw_is_a;;
  Relationship_call "can_be" kw_can_be;;
  Relationship_call "has_part" kw_has_part;;
  Relationship_call "part_of" kw_part_of;;
  Relationship_call "has_units" kw_has_units;;
  Relationship_call "has_domain" kw_has_domain;;
  ret tt.

(** The state right after the import. *)
Definition seeded : State := snd (module_body initial).

(** The canonical instance of a name, if any. *)
Definition lookup (name : string) (s : State) : option loc :=
  OrderedDict.get name (_instances s).

(** The attributes of an instance, if it has been initialised. *)
Definition attrs (r : loc) (s : State) : option Relationship :=
  mjoin (heap s !! r).

(** A run of later requests, all for the same name. *)
Fixpoint call_each (obo_name : string) (kws : list kwargs) : M (list loc) :=
  match kws with
  | [] => ret []
  | kw :: kws' =>
      r ← Relationship_call obo_name kw;
      rs ← call_each obo_name kws';
      ret (r :: rs)
  end.

(** A run of requests for arbitrary names. *)
Fixpoint call_all (reqs : list (string * kwargs)) : M (list loc) :=
  match reqs with
  | [] => ret []
  | (name, kw) :: reqs' =>
      r ← Relationship_call name kw;
      rs ← call_all reqs';
      ret (r :: rs)
  end.

(** The registry after [self] was stored under each of [als] in turn. *)
Definition alias_all (self : loc) (als : list string) (d : OrderedDict.t)
    : OrderedDict.t :=
  foldl (fun d alias => OrderedDict.set alias self d) d als.

(** An exception carries a name when the name occurs in its payload. *)
Fixpoint occurs (name s : string) : bool :=
  String.prefix name s ||
  match s with
  | EmptyString => false
  | String _ s' => occurs name s'
  end.

Definition carries (e : exn) (name : string) : bool :=
  match e with
  | KeyError k => occurs name k
  | ValueError msg => occurs name msg
  | AttributeError a => occurs name a
  end.

(** Requests used in the examples below. *)
Definition kw_alias_is_a : kwargs :=
  mkKwargs None None None None None None None (Some ["is_a"]).

Definition kw_orphan : kwargs :=
  mkKwargs None None None (Some "missing") None None None None.

Definition kw_topdown : kwargs :=
  mkKwargs None None None None None (Some "topdown") None None.

Definition stanza_not_symmetric : stanza :=
  <["id" := "overlaps"]> (<["is_symmetric" := "false"]> ∅).

Definition stanza_not_antisymmetric : stanza :=
  <["id" := "adjacent_to"]> (<["is_antisymetric" := "False"]> ∅).

(** *** Display *)

(** ["Relationship({})".format(self.obo_name)] *)
Definition __repr__ (self : loc) : M string :=
  n ← getattr self "obo_name" obo_name;
  ret (String.append "Relationship(" (String.append n ")")).

(** ** Clients of the class *)

(** One call a client can make on the class or on an instance. *)
Inductive request :=
| Construct (name : string) (kw : kwargs)
| FromOboDict (d : stanza)
| Loads (pickled : string)
| Dumps (self : loc)
| Complement (self : loc)
| Topdown
| Bottomup
| Repr (self : loc).

(** The state a call leaves behind, whether it returned or raised. *)
Definition perform (q : request) (s : State) : State :=
  match q with
  | Construct name kw => snd (Relationship_call name kw s)
  | FromOboDict d => snd (_from_obo_dict d s)
  | Loads pickled => snd (loads pickled s)
  | Dumps self => snd (dumps self s)
  | Complement self => snd (complement self s)
  | Topdown => snd (topdown s)
  | Bottomup => snd (bottomup s)
  | Repr self => snd (__repr__ self s)
  end.

Definition perform_all (qs : list request) (s : State) : State :=
  foldl (fun s q => perform q s) s qs.

(** An instance on which [__init__] has set the attributes. *)
Definition initialised (s : State) (r : loc) : Prop := is_Some (attrs r s).

(** A registry is well formed when its keys are distinct, as those of a
    dictionary are, and every value is an initialised instance. *)
Definition wf (s : State) : Prop :=
  NoDup (OrderedDict.keys (_instances s)) /\
  Forall (initialised s) (OrderedDict.values (_instances s)).

#[global] Instance wf_dec (s : State) : Decision (wf s).
Proof. unfold wf, initialised. apply _. Defined.

(** [r.direction == dir], false on an instance without attributes. *)
Definition has_direction (dir : string) (s : State) (r : loc) : bool :=
  match attrs r s with
  | Some rec => String.eqb (direction rec) dir
  | None => false
  end.

(** The state after a first [Relationship(name, **kw)]. *)
Definition constructed (name : string) (kw : kwargs) (s : State) : State :=
  mkState (heap s ++ [Some (init_attrs name kw)])
    (alias_all (length (heap s)) (or_list (kw_aliases kw))
       (OrderedDict.set name (length (heap s)) (_instances s))).

Definition kw_develops_from : kwargs :=
  mkKwargs None None None None None (Some "topdown") None
           (Some ["derives_from"]).

Definition kw_precedes : kwargs :=
  mkKwargs None None None (Some "preceded_by") None None None None.

Definition kw_preceded_by : kwargs :=
  mkKwargs None None None (Some "precedes") None None None None.

(** A call takes the key [N] over when it constructs a new record, that is
    when it is a constructor call for a name not registered at that time,
    whose aliases contain [N]. *)
Definition steals (N : string) (q : request) (s : State) : bool :=
  match q with
  | Construct name kw =>
      match lookup name s with
      | None => bool_decide (N ∈ or_list (kw_aliases kw))
      | Some _ => false
      end
  | _ => false
  end.

(** No call of the run [qs], started in [s], takes [N] over. *)
Fixpoint never_stolen (N : string) (qs : list request) (s : State) : bool :=
  match qs with
  | [] => true
  | q :: qs' => negb (steals N q s) && never_stolen N qs' (perform q s)
  end.

(** * Properties *)

Example seeded_instances :
  _instances seeded =
    [("is_a", 0); ("can_be", 1); ("has_part", 2); ("part_of", 3);
     ("is_part", 3); ("has_units", 4); ("has_domain", 5)].
Proof. vm_compute. reflexivity. Qed.

Example seeded_topdown : fst (topdown seeded) = inr [1; 2].
Proof. vm_compute. reflexivity. Qed.

(** ** The ordered dictionary *)

Section OrderedDictFacts.

Import OrderedDict.

Lemma get_set (k k' : string) (v : loc) (d : t) :
  get k (set k' v d) = if String.eqb k k' then Some v else get k d.
Proof.
  induction d as [|[k0 v0] d IH]; simpl.
  - destruct (String.eqb k k'); reflexivity.
  - destruct (String.eqb_spec k' k0) as [->|Hne]; simpl.
    + destruct (String.eqb k k0); reflexivity.
    + rewrite IH. destruct (String.eqb_spec k k0) as [->|Hne'].
      * destruct (String.eqb_spec k0 k'); congruence.
      * reflexivity.
Qed.

Lemma get_set_same (k : string) (v : loc) (d : t) :
  get k (set k v d) = Some v.
Proof. rewrite get_set, String.eqb_refl. reflexivity. Qed.

Lemma get_alias_all (k : string) (self : loc) (als : list string) (d : t) :
  get k (alias_all self als d) =
    if bool_decide (k ∈ als) then Some self else get k d.
Proof.
  revert d. induction als as [|a als IH]; intros d; simpl.
  - reflexivity.
  - rewrite IH, get_set.
    destruct (String.eqb_spec k a) as [->|Hne].
    + rewrite (bool_decide_eq_true_2 (a ∈ a :: als)) by left.
      destruct (bool_decide (a ∈ als)); reflexivity.
    + destruct (decide (k ∈ als)) as [Hin|Hnin].
      * rewrite !bool_decide_eq_true_2; [reflexivity | by right | done].
      * rewrite !bool_decide_eq_false_2; [reflexivity | | done].
        intros [?|?]%elem_of_cons; done.
Qed.

End OrderedDictFacts.

(** ** The constructor *)

Lemma register_aliases_run (self : loc) (als : list string) (s : State) :
  register_aliases self als s =
    (inr tt, mkState (heap s) (alias_all self als (_instances s))).
Proof.
  revert s. induction als as [|a als IH]; intros [h d]; simpl.
  - reflexivity.
  - unfold mbind, M_bind, bind. simpl. rewrite IH. reflexivity.
Qed.

Lemma fill_last (h : list instance) (x y : instance) :
  <[length h := x]> (h ++ [y])%list = (h ++ [x])%list.
Proof.
  rewrite <- (Nat.add_0_r (length h)), insert_app_r. reflexivity.
Qed.

(** A name that is registered: the call hands out the registered instance
    and touches nothing. *)
Lemma Relationship_call_registered (name : string) (kw : kwargs)
    (s : State) (r : loc) :
  lookup name s = Some r -> Relationship_call name kw s = (inr r, s).
Proof.
  unfold lookup. intros H. destruct s as [h d]; simpl in H.
  unfold Relationship_call, __new__, __init__, mbind, M_bind, bind,
    get_instances, OrderedDict.mem; simpl.
  rewrite H; simpl. rewrite H; simpl. reflexivity.
Qed.

(** A name that is not registered: a new instance is allocated, filled and
    stored under the name and then under each alias. *)
Lemma Relationship_call_fresh (name : string) (kw : kwargs) (s : State) :
  lookup name s = None ->
  Relationship_call name kw s =
    (inr (length (heap s)),
     mkState (heap s ++ [Some (init_attrs name kw)])
       (alias_all (length (heap s)) (or_list (kw_aliases kw))
          (OrderedDict.set name (length (heap s)) (_instances s)))).
Proof.
  unfold lookup. intros H. destruct s as [h d]; simpl in H.
  unfold Relationship_call, __new__, __init__, mbind, M_bind, bind,
    get_instances, OrderedDict.mem, object_new; simpl.
  rewrite H; simpl. rewrite H; simpl.
  rewrite register_aliases_run; simpl.
  rewrite fill_last. reflexivity.
Qed.

Lemma call_each_registered (name : string) (kws : list kwargs)
    (s : State) (r : loc) :
  lookup name s = Some r ->
  call_each name kws s = (inr (replicate (length kws) r), s).
Proof.
  intros H. induction kws as [|kw kws IH]; simpl.
  - reflexivity.
  - unfold mbind, M_bind, bind.
    rewrite (Relationship_call_registered _ _ _ _ H), IH. reflexivity.
Qed.

Lemma attrs_fresh (h : list instance) (d : OrderedDict.t) (r : Relationship) :
  attrs (length h) (mkState (h ++ [Some r]) d) = Some r.
Proof.
  unfold attrs; simpl. rewrite list_lookup_middle; reflexivity.
Qed.

(** Requests for one name issued back to back: a first request for [N]
    returns an instance [r] that is then registered under [N]; the requests
    for [N] that follow it directly, whatever their arguments, return the
    same [r] and leave the whole state, heap and registry, as the first
    request left it. *)
Lemma construction_idempotent (s : State) (N : string) (kw1 : kwargs)
    (kws : list kwargs) :
  exists r s1,
    Relationship_call N kw1 s = (inr r, s1) /\
    lookup N s1 = Some r /\
    call_each N kws s1 = (inr (replicate (length kws) r), s1) /\
    match lookup N s with
    | None => attrs r s1 = Some (init_attrs N kw1)
    | Some r0 => r = r0 /\ s1 = s
    end.
Proof.
  destruct (lookup N s) as [r0|] eqn:HN.
  - exists r0, s. rewrite (Relationship_call_registered _ _ _ _ HN).
    repeat split; auto using call_each_registered.
  - rewrite (Relationship_call_fresh _ _ _ HN).
    eexists _, _. split; [reflexivity|].
    assert (Hreg : lookup N
      (mkState (heap s ++ [Some (init_attrs N kw1)])
         (alias_all (length (heap s)) (or_list (kw_aliases kw1))
            (OrderedDict.set N (length (heap s)) (_instances s))))
      = Some (length (heap s))).
    { unfold lookup; simpl. rewrite get_alias_all, get_set_same.
      destruct (bool_decide _); reflexivity. }
    repeat split; auto using call_each_registered, attrs_fresh.
Qed.

(** Between two requests for [N], requests for other names do not disturb
    the canonical instance of [N] as long as none of them claims [N] as an
    alias. *)
Lemma canonical_stable_step (s : State) (N name : string) (kw : kwargs)
    (r : loc) (rec : Relationship) :
  N ∉ or_list (kw_aliases kw) ->
  lookup N s = Some r ->
  attrs r s = Some rec ->
  exists r' s',
    Relationship_call name kw s = (inr r', s') /\
    lookup N s' = Some r /\
    attrs r s' = Some rec.
Proof.
  intros Hal HN Hr. destruct (lookup name s) as [r0|] eqn:Hname.
  - rewrite (Relationship_call_registered _ _ _ _ Hname). eauto.
  - rewrite (Relationship_call_fresh _ _ _ Hname).
    eexists _, _. split; [reflexivity|]. split.
    + unfold lookup in *; simpl. rewrite get_alias_all, get_set.
      rewrite bool_decide_eq_false_2 by exact Hal.
      destruct (String.eqb_spec N name) as [->|_]; [congruence|exact HN].
    + unfold attrs in *; simpl.
      destruct (heap s !! r) as [i|] eqn:Hi; [|discriminate].
      rewrite (lookup_app_l_Some _ _ _ _ Hi). exact Hr.
Qed.

Lemma canonical_stable (reqs : list (string * kwargs)) (s : State)
    (N : string) (r : loc) (rec : Relationship) :
  Forall (fun req => N ∉ or_list (kw_aliases req.2)) reqs ->
  lookup N s = Some r ->
  attrs r s = Some rec ->
  exists rs s',
    call_all reqs s = (inr rs, s') /\
    lookup N s' = Some r /\
    attrs r s' = Some rec.
Proof.
  intros Hall. revert s.
  induction Hall as [|[name kw] reqs Hal _ IH]; intros s HN Hr; simpl.
  - eexists _, _. split; [reflexivity|]. split; assumption.
  - destruct (canonical_stable_step s N name kw r rec Hal HN Hr)
      as (r' & s1 & Hrun & HN1 & Hr1).
    destruct (IH s1 HN1 Hr1) as (rs & s2 & Hrun2 & HN2 & Hr2).
    exists (r' :: rs), s2. unfold mbind, M_bind, bind.
    rewrite Hrun, Hrun2. split; [reflexivity|]. split; assumption.
Qed.

Lemma first_construction_stores (name : string) (kw : kwargs) (s : State) :
  lookup name s = None ->
  exists r s',
    Relationship_call name kw s = (inr r, s') /\
    heap s !! r = None /\
    attrs r s' = Some (init_attrs name kw).
Proof.
  intros H. rewrite (Relationship_call_fresh _ _ _ H).
  eexists _, _. split; [reflexivity|]. split.
  - apply lookup_ge_None_2. lia.
  - apply attrs_fresh.
Qed.

(** What a first construction stores, field by field: each attribute is
    its argument or the default, except [transitivity], which receives the
    [reflexivity] argument. *)
Lemma init_attrs_fields (name : string) (kw : kwargs) :
  let r := init_attrs name kw in
  obo_name r = name /\
  symmetry r = kw_symmetry kw /\
  reflexivity r = kw_reflexivity kw /\
  complementary r = default "" (kw_complementary kw) /\
  prefix r = default "" (kw_prefix kw) /\
  direction r = default "" (kw_direction kw) /\
  comment r = default "" (kw_comment kw) /\
  aliases r = default [] (kw_aliases kw) /\
  transitivity r = kw_reflexivity kw.
Proof. repeat split. Qed.

(** C2.  The stored transitivity is not the transitivity argument:
    [Relationship('has_units', symmetry=False, transitivity=False,
    reflexivity=None)], the module's own fifth registration, run on the
    empty registry, leaves an instance whose [transitivity] is [None]. *)
Theorem transitivity_argument_not_stored :
  lookup "has_units" initial = None /\
  kw_transitivity kw_has_units = Some false /\
  exists r s',
    Relationship_call "has_units" kw_has_units initial = (inr r, s') /\
    transitivity <$> attrs r s' = Some None.
Proof.
  split; [reflexivity|]. split; [reflexivity|].
  exists 0, (snd (Relationship_call "has_units" kw_has_units initial)).
  split; vm_compute; reflexivity.
Qed.

(** C3, as stated, fails: after [Relationship('stolen', aliases=['is_a'])]
    on the seeded registry the key ["is_a"] no longer denotes the instance
    it denoted before. *)
Lemma alias_collision_overwrites :
  lookup "stolen" seeded = None /\
  "is_a" ∈ or_list (kw_aliases kw_alias_is_a) /\
  lookup "is_a" seeded = Some 0 /\
  lookup "is_a" (snd (Relationship_call "stolen" kw_alias_is_a seeded))
    = Some 6 /\
  lookup "is_a" (snd (Relationship_call "stolen" kw_alias_is_a seeded))
    <> lookup "is_a" seeded.
Proof.
  split; [reflexivity|]. split; [left|].
  split; [reflexivity|]. split; [vm_compute; reflexivity|].
  vm_compute. discriminate.
Qed.

(** C3, amended.  Constructing a new record whose aliases contain a key
    [K] that is already taken raises nothing and makes [K] denote the
    record just allocated: the last registrant of an alias wins. *)
Theorem alias_collision_last_wins (s : State) (N : string) (kw : kwargs)
    (K : string) (r0 : loc) :
  lookup N s = None ->
  K ∈ or_list (kw_aliases kw) ->
  lookup K s = Some r0 ->
  exists r s',
    Relationship_call N kw s = (inr r, s') /\
    heap s !! r = None /\
    attrs r s' = Some (init_attrs N kw) /\
    lookup K s' = Some r.
Proof.
  intros HN HK _. rewrite (Relationship_call_fresh _ _ _ HN).
  eexists _, _. split; [reflexivity|].
  split; [apply lookup_ge_None_2; lia|].
  split; [apply attrs_fresh|].
  unfold lookup; simpl. rewrite get_alias_all.
  rewrite bool_decide_eq_true_2 by exact HK. reflexivity.
Qed.

Lemma alias_collision_last_wins_witness :
  lookup "stolen" seeded = None /\
  "is_a" ∈ or_list (kw_aliases kw_alias_is_a) /\
  lookup "is_a" seeded = Some 0 /\
  exists r s',
    Relationship_call "stolen" kw_alias_is_a seeded = (inr r, s') /\
    heap seeded !! r = None /\
    attrs r s' = Some (init_attrs "stolen" kw_alias_is_a) /\
    lookup "is_a" s' = Some r.
Proof.
  assert (H1 : lookup "stolen" seeded = None) by reflexivity.
  assert (H2 : "is_a" ∈ or_list (kw_aliases kw_alias_is_a)) by left.
  assert (H3 : lookup "is_a" seeded = Some 0) by reflexivity.
  split; [exact H1|]. split; [exact H2|]. split; [exact H3|].
  exact (alias_collision_last_wins seeded "stolen" kw_alias_is_a "is_a" 0
           H1 H2 H3).
Defined.

(** ** Complement *)

(** C10.  [complement] only reads: whatever the instance and the state,
    and whether it returns an instance, returns [None] or raises, the
    state after the call is the state before it. *)
Theorem complement_read_only (self : loc) (s : State) :
  snd (complement self s) = s.
Proof.
  unfold complement, mbind, M_bind, bind, getattr, get_instances, raise.
  destruct (heap s !! self) as [[rec|]|]; simpl; try reflexivity.
  destruct (negb _); simpl; [|reflexivity].
  destruct (OrderedDict.get _ _); reflexivity.
Qed.

(** C4, as stated, fails: the error raised for a complementary name that
    is not registered does not carry that name. *)
Lemma complement_error_omits_name :
  let s := snd (Relationship_call "orphan" kw_orphan seeded) in
  complementary <$> attrs 6 s = Some "missing" /\
  lookup "missing" s = None /\
  exists e, fst (complement 6 s) = inl e /\ carries e "missing" = false.
Proof.
  split; [vm_compute; reflexivity|]. split; [vm_compute; reflexivity|].
  eexists. split; vm_compute; reflexivity.
Qed.

(** C4, amended.  For an initialised record, [complement] returns [None]
    when the complementary name is empty, the registered instance when the
    name is set and registered, and raises a [ValueError] when the name is
    set and not registered. *)
Theorem complement_contract (s : State) (self : loc) (rec : Relationship) :
  attrs self s = Some rec ->
  if String.eqb (complementary rec) "" then
    fst (complement self s) = inr None
  else
    match lookup (complementary rec) s with
    | Some r => fst (complement self s) = inr (Some r)
    | None => exists msg, fst (complement self s) = inl (ValueError msg)
    end.
Proof.
  unfold attrs, lookup. intros H.
  unfold complement, mbind, M_bind, bind, getattr, get_instances, raise.
  destruct (heap s !! self) as [[rec'|]|]; simpl in H; try discriminate.
  injection H as ->.
  destruct (String.eqb (complementary rec) ""); simpl; [reflexivity|].
  destruct (OrderedDict.get _ _); simpl; eauto.
Qed.

Lemma complement_contract_witness :
  attrs 0 seeded = Some (init_attrs "is_a" kw_is_a) /\
  fst (complement 0 seeded) = inr (Some 1).
Proof.
  assert (H : attrs 0 seeded = Some (init_attrs "is_a" kw_is_a))
    by reflexivity.
  split; [exact H|].
  exact (complement_contract seeded 0 (init_attrs "is_a" kw_is_a) H).
Defined.

(** ** Pickling *)

(** C5.  A record pickles to its name alone, and unpickling a name in a
    process where it is registered returns the instance registered there
    and changes nothing.  For a canonical record of the pickling process
    itself, the round trip gives back the very same instance. *)
Theorem pickle_roundtrip_identity (s s' : State) (r r' : loc)
    (rec : Relationship) :
  attrs r s = Some rec ->
  lookup (obo_name rec) s' = Some r' ->
  dumps r s = (inr (obo_name rec), s) /\
  loads (obo_name rec) s' = (inr r', s').
Proof.
  unfold attrs, lookup. intros Hr Hn. split.
  - unfold dumps, __getnewargs__, __getstate__, mbind, M_bind, bind, getattr.
    destruct (heap s !! r) as [[rec'|]|]; simpl in Hr; try discriminate.
    injection Hr as ->. reflexivity.
  - unfold loads, __new__, mbind, M_bind, bind, get_instances; simpl.
    rewrite Hn. reflexivity.
Qed.

Lemma pickle_roundtrip_identity_witness :
  attrs 0 seeded = Some (init_attrs "is_a" kw_is_a) /\
  lookup "is_a" seeded = Some 0 /\
  dumps 0 seeded = (inr "is_a", seeded) /\
  loads "is_a" seeded = (inr 0, seeded).
Proof.
  assert (H1 : attrs 0 seeded = Some (init_attrs "is_a" kw_is_a))
    by reflexivity.
  assert (H2 : lookup (obo_name (init_attrs "is_a" kw_is_a)) seeded = Some 0)
    by reflexivity.
  split; [exact H1|]. split; [exact H2|].
  exact (pickle_roundtrip_identity seeded seeded 0 0 _ H1 H2).
Defined.

(** C6, as stated, fails: unpickling a name the registry does not know
    returns a new instance, but the name is still unknown afterwards, the
    instance has no attribute, and unpickling the same name again returns
    yet another instance. *)
Lemma loads_unknown_not_registered :
  lookup "unknown" seeded = None /\
  exists r s',
    loads "unknown" seeded = (inr r, s') /\
    lookup "unknown" s' <> Some r /\
    attrs r s' = None /\
    fst (loads "unknown" s') <> inr r.
Proof.
  split; [reflexivity|].
  exists 6, (snd (loads "unknown" seeded)).
  split; [vm_compute; reflexivity|].
  split; [vm_compute; discriminate|].
  split; [vm_compute; reflexivity|].
  vm_compute. discriminate.
Qed.

(** C6, amended.  Unpickling a name that is not registered does not fail:
    it returns a newly allocated instance on which no attribute is set, and
    it leaves the registry as it was, so the name stays unregistered. *)
Theorem loads_unknown (s : State) (name : string) :
  lookup name s = None ->
  exists r s',
    loads name s = (inr r, s') /\
    heap s !! r = None /\
    heap s' !! r = Some None /\
    _instances s' = _instances s /\
    lookup name s' = None.
Proof.
  unfold lookup. intros H.
  unfold loads, __new__, mbind, M_bind, bind, get_instances, object_new; simpl.
  rewrite H. eexists _, _. split; [reflexivity|]. simpl.
  split; [apply lookup_ge_None_2; lia|].
  split; [apply list_lookup_middle; reflexivity|].
  split; [reflexivity|exact H].
Qed.

Lemma loads_unknown_witness :
  lookup "unknown" seeded = None /\
  exists r s',
    loads "unknown" seeded = (inr r, s') /\
    heap seeded !! r = None /\
    heap s' !! r = Some None /\
    _instances s' = _instances seeded /\
    lookup "unknown" s' = None.
Proof.
  assert (H : lookup "unknown" seeded = None) by reflexivity.
  split; [exact H|]. exact (loads_unknown seeded "unknown" H).
Defined.

(** ** The seed registrations *)

(** C7.  On the seeded registry, the complement of the complement of each
    of is_a, can_be, has_part and part_of is that same instance. *)
Theorem seed_complement_involution :
  Forall
    (fun X =>
       exists r c,
         lookup X seeded = Some r /\
         complement r seeded = (inr (Some c), seeded) /\
         complement c seeded = (inr (Some r), seeded))
    ["is_a"; "can_be"; "has_part"; "part_of"].
Proof.
  repeat constructor; eexists _, _;
    (split; [vm_compute; reflexivity|]);
    split; vm_compute; reflexivity.
Qed.

(** ** The adapter *)

Example lower_mixed_case : lower "TrUe" = "true" /\ lower "FALSE" = "false".
Proof. split; reflexivity. Qed.

(** C9, as stated, fails: a stanza with [is_symmetric: false] and no
    [is_antisymetric] key gives a record whose symmetry is [None], not
    [False]. *)
Lemma symmetric_false_is_unknown :
  stanza_not_symmetric !! "id" = Some "overlaps" /\
  lookup "overlaps" seeded = None /\
  stanza_not_symmetric !! "is_antisymetric" = None /\
  flag stanza_not_symmetric "is_symmetric" "true" = Some false /\
  exists r s',
    _from_obo_dict stanza_not_symmetric seeded = (inr r, s') /\
    symmetry <$> attrs r s' = Some None.
Proof.
  split; [vm_compute; reflexivity|]. split; [reflexivity|].
  split; [vm_compute; reflexivity|]. split; [vm_compute; reflexivity|].
  exists 6, (snd (_from_obo_dict stanza_not_symmetric seeded)).
  split; vm_compute; reflexivity.
Qed.

(** C9, amended.  For a stanza whose id is not yet registered, the
    symmetry of the resulting record is: when the key [is_antisymetric] is
    present, whether its value is ["false"] up to case, which is never
    unknown, even without an [is_symmetric] key; otherwise [True] when
    [is_symmetric] is present and equal to ["true"] up to case, and unknown
    in every other case, among them [is_symmetric: false]. *)
Theorem adapter_symmetry (s : State) (d : stanza) (id : string) :
  d !! "id" = Some id ->
  lookup id s = None ->
  exists r s',
    _from_obo_dict d s = (inr r, s') /\
    symmetry <$> attrs r s' =
      Some match d !! "is_antisymetric" with
           | Some x => Some (String.eqb (lower x) "false")
           | None =>
               match d !! "is_symmetric" with
               | Some x => if String.eqb (lower x) "true" then Some true
                           else None
               | None => None
               end
           end.
Proof.
  intros Hid Hnew. unfold _from_obo_dict. rewrite Hid.
  unfold mbind at 1. unfold M_bind, bind, get_instances at 1.
  unfold lookup in Hnew. rewrite Hnew.
  rewrite (Relationship_call_fresh _ _ _ Hnew).
  eexists _, _. split; [reflexivity|].
  rewrite attrs_fresh. simpl. f_equal. unfold flag.
  destruct (d !! "is_antisymetric"); [reflexivity|].
  destruct (d !! "is_symmetric"); [|reflexivity].
  destruct (String.eqb _ _); reflexivity.
Qed.

Lemma adapter_symmetry_witness :
  stanza_not_antisymmetric !! "id" = Some "adjacent_to" /\
  lookup "adjacent_to" seeded = None /\
  exists r s',
    _from_obo_dict stanza_not_antisymmetric seeded = (inr r, s') /\
    symmetry <$> attrs r s' = Some (Some true).
Proof.
  assert (H1 : stanza_not_antisymmetric !! "id" = Some "adjacent_to")
    by (vm_compute; reflexivity).
  assert (H2 : lookup "adjacent_to" seeded = None) by reflexivity.
  split; [exact H1|]. split; [exact H2|].
  destruct (adapter_symmetry seeded stanza_not_antisymmetric "adjacent_to"
              H1 H2) as (r & s' & Hrun & Hsym).
  exists r, s'. split; [exact Hrun|]. rewrite Hsym. vm_compute. reflexivity.
Defined.

(** ** Classification queries *)

Section UniqueEverseen.

Lemma elem_of_unique_everseen_from (seen : gset loc) (it : list loc)
    (x : loc) :
  x ∈ unique_everseen_from seen it <-> x ∈ it /\ x ∉ seen.
Proof.
  revert seen. induction it as [|y it IH]; intros seen; simpl.
  - rewrite elem_of_nil. tauto.
  - destruct (decide (y ∈ seen)) as [Hy|Hy].
    + rewrite IH, elem_of_cons. intuition congruence.
    + rewrite !elem_of_cons, IH, not_elem_of_union, not_elem_of_singleton.
      destruct (decide (x = y)) as [->|Hxy]; intuition congruence.
Qed.

Lemma NoDup_unique_everseen_from (seen : gset loc) (it : list loc) :
  NoDup (unique_everseen_from seen it).
Proof.
  revert seen. induction it as [|y it IH]; intros seen; simpl.
  - constructor.
  - destruct (decide (y ∈ seen)); [apply IH|].
    constructor; [|apply IH].
    rewrite elem_of_unique_everseen_from, not_elem_of_union,
      not_elem_of_singleton.
    intuition congruence.
Qed.

Lemma sublist_unique_everseen_from (seen : gset loc) (it : list loc) :
  unique_everseen_from seen it `sublist_of` it.
Proof.
  revert seen. induction it as [|y it IH]; intros seen; simpl.
  - constructor.
  - destruct (decide (y ∈ seen)).
    + apply sublist_cons, IH.
    + apply sublist_skip, IH.
Qed.

(** Each element of the input is kept once, at its first position. *)
Lemma unique_everseen_spec (it : list loc) :
  NoDup (unique_everseen it) /\
  unique_everseen it `sublist_of` it /\
  forall x, x ∈ unique_everseen it <-> x ∈ it.
Proof.
  unfold unique_everseen. split; [apply NoDup_unique_everseen_from|].
  split; [apply sublist_unique_everseen_from|].
  intros x. rewrite elem_of_unique_everseen_from.
  pose proof (not_elem_of_empty (C := gset loc) x). tauto.
Qed.

End UniqueEverseen.

(** C8.  On the seeded registry, whose keys are, in registration order,
    is_a, can_be, has_part, part_of, is_part, has_units and has_domain,
    [bottomup()] is the pair (is_a, part_of) and [topdown()] the pair
    (can_be, has_part): distinct instances, each listed once although
    part_of is also reached through the key is_part, in the order of their
    registration; neither query changes the state. *)
Theorem seed_classification :
  OrderedDict.keys (_instances seeded) =
    ["is_a"; "can_be"; "has_part"; "part_of"; "is_part"; "has_units";
     "has_domain"] /\
  exists is_a can_be has_part part_of,
    lookup "is_a" seeded = Some is_a /\
    lookup "can_be" seeded = Some can_be /\
    lookup "has_part" seeded = Some has_part /\
    lookup "part_of" seeded = Some part_of /\
    lookup "is_part" seeded = Some part_of /\
    bottomup seeded = (inr [is_a; part_of], seeded) /\
    topdown seeded = (inr [can_be; has_part], seeded) /\
    NoDup [is_a; can_be; has_part; part_of].
Proof.
  split; [vm_compute; reflexivity|].
  exists 0, 1, 2, 3.
  do 7 (split; [vm_compute; reflexivity|]).
  repeat (constructor; [rewrite ?elem_of_cons, ?elem_of_nil; lia|]).
  constructor.
Qed.

(** The order is that of registration, not that of the names. *)
Example topdown_keeps_registration_order :
  fst ((Relationship_call "zeta" kw_topdown;;
        Relationship_call "alpha" kw_topdown;;
        topdown) initial) = inr [0; 1] /\
  fst ((Relationship_call "zeta" kw_topdown;;
        Relationship_call "alpha" kw_topdown;;
        r ← Relationship_call "zeta" no_kwargs; ret r) initial) = inr 0.
Proof. split; vm_compute; reflexivity. Qed.

Example wf_seeded : wf seeded.
Proof. apply (bool_decide_unpack (wf seeded)). vm_compute. exact I. Qed.

(** * Further properties of the class *)

(** ** Order and shape of the registry *)

Section OrderedDictOrder.

Import OrderedDict.

Lemma get_None_keys (k : string) (d : t) : get k d = None <-> k ∉ keys d.
Proof.
  induction d as [|[k0 v0] d IH]; simpl.
  - rewrite elem_of_nil. tauto.
  - rewrite not_elem_of_cons, <- IH.
    destruct (String.eqb_spec k k0); intuition congruence.
Qed.

Lemma keys_set (k : string) (v : loc) (d : t) :
  keys (set k v d) = if mem k d then keys d else (keys d ++ [k])%list.
Proof.
  unfold mem. induction d as [|[k0 v0] d IH]; simpl; [reflexivity|].
  destruct (String.eqb_spec k k0) as [->|Hne]; simpl; [reflexivity|].
  rewrite IH. destruct (get k d); reflexivity.
Qed.

Lemma keys_set_prefix (k : string) (v : loc) (d : t) :
  keys d `prefix_of` keys (set k v d).
Proof.
  rewrite keys_set. destruct (mem k d); [reflexivity|].
  apply prefix_app_r. reflexivity.
Qed.

Lemma NoDup_keys_set (k : string) (v : loc) (d : t) :
  NoDup (keys d) -> NoDup (keys (set k v d)).
Proof.
  intros Hd. rewrite keys_set. unfold mem.
  destruct (get k d) eqn:Hk; [exact Hd|].
  apply NoDup_app. split; [exact Hd|]. split.
  - intros x Hx [->|Hnil]%elem_of_cons.
    + apply get_None_keys in Hk. contradiction.
    + apply elem_of_nil in Hnil. contradiction.
  - apply NoDup_singleton.
Qed.

Lemma Forall_values_set (P : loc -> Prop) (k : string) (v : loc) (d : t) :
  Forall P (values d) -> P v -> Forall P (values (set k v d)).
Proof.
  intros Hd Hv. induction d as [|[k0 v0] d IH]; simpl.
  - repeat constructor. exact Hv.
  - apply Forall_cons in Hd as [H0 Hd].
    destruct (String.eqb k k0); simpl; constructor; auto.
Qed.

Lemma keys_alias_all_prefix (v : loc) (als : list string) (d : t) :
  keys d `prefix_of` keys (alias_all v als d).
Proof.
  revert d. induction als as [|a als IH]; intros d; simpl; [reflexivity|].
  etrans; [apply (keys_set_prefix a v)|apply IH].
Qed.

Lemma NoDup_keys_alias_all (v : loc) (als : list string) (d : t) :
  NoDup (keys d) -> NoDup (keys (alias_all v als d)).
Proof.
  revert d. induction als as [|a als IH]; intros d Hd; simpl; [exact Hd|].
  apply IH, NoDup_keys_set, Hd.
Qed.

Lemma Forall_values_alias_all (P : loc -> Prop) (v : loc)
    (als : list string) (d : t) :
  Forall P (values d) -> P v -> Forall P (values (alias_all v als d)).
Proof.
  revert d. induction als as [|a als IH]; intros d Hd Hv; simpl; [exact Hd|].
  apply IH; [apply Forall_values_set|]; assumption.
Qed.

Lemma get_Some_values (k : string) (r : loc) (d : t) :
  get k d = Some r -> r ∈ values d.
Proof.
  induction d as [|[k0 v0] d IH]; simpl; [discriminate|].
  destruct (String.eqb k k0).
  - intros [= ->]. left.
  - intros H. right. auto.
Qed.

Lemma values_get_Some (r : loc) (d : t) :
  NoDup (keys d) -> r ∈ values d -> exists k, get k d = Some r.
Proof.
  induction d as [|[k0 v0] d IH]; simpl.
  - intros _ H. apply elem_of_nil in H. contradiction.
  - intros [Hk0 Hd]%NoDup_cons [->|Hr]%elem_of_cons.
    + exists k0. rewrite String.eqb_refl. reflexivity.
    + destruct (IH Hd Hr) as [k Hk]. exists k.
      destruct (String.eqb_spec k k0) as [->|_]; [|exact Hk].
      destruct (decide (k0 ∈ keys d)) as [Hin|Hnin]; [destruct (Hk0 Hin)|].
      apply get_None_keys in Hnin. congruence.
Qed.

End OrderedDictOrder.

(** ** What a call can do to the state *)

Lemma getattr_state {A} (self : loc) (name : string)
    (proj : Relationship -> A) (s : State) :
  snd (getattr self name proj s) = s.
Proof. unfold getattr. destruct (heap s !! self) as [[?|]|]; reflexivity. Qed.

Lemma with_direction_state (dir : string) (it : list loc) (s : State) :
  snd (with_direction dir it s) = s.
Proof.
  induction it as [|r it IH]; simpl; [reflexivity|].
  unfold mbind, M_bind, bind, getattr.
  destruct (heap s !! r) as [[rec|]|]; simpl; try reflexivity.
  destruct (with_direction dir it s) as [[e|rs] s'] eqn:Hrun;
    simpl in IH; subst s'; reflexivity.
Qed.

Lemma classify_state (dir : string) (s : State) :
  snd ((d ← get_instances;
        rs ← with_direction dir (OrderedDict.values d);
        ret (unique_everseen rs)) s) = s.
Proof.
  unfold mbind, M_bind, bind, get_instances; simpl.
  pose proof (with_direction_state dir (OrderedDict.values (_instances s)) s)
    as Hs.
  destruct (with_direction _ _ s) as [[e|rs] s']; simpl in Hs; subst s';
    reflexivity.
Qed.

Lemma complement_state (self : loc) (s : State) :
  snd (complement self s) = s.
Proof.
  unfold complement, mbind, M_bind, bind, getattr, get_instances, raise.
  destruct (heap s !! self) as [[rec|]|]; simpl; try reflexivity.
  destruct (String.eqb _ _); simpl; [reflexivity|].
  destruct (OrderedDict.get _ _); reflexivity.
Qed.

Lemma dumps_state (self : loc) (s : State) : snd (dumps self s) = s.
Proof.
  unfold dumps, __getnewargs__, __getstate__, mbind, M_bind, bind, getattr.
  destruct (heap s !! self) as [[rec|]|]; reflexivity.
Qed.

Lemma repr_state (self : loc) (s : State) : snd (__repr__ self s) = s.
Proof.
  unfold __repr__, mbind, M_bind, bind, getattr.
  destruct (heap s !! self) as [[rec|]|]; reflexivity.
Qed.

Lemma Relationship_call_constructed (name : string) (kw : kwargs)
    (s : State) :
  lookup name s = None ->
  Relationship_call name kw s = (inr (length (heap s)), constructed name kw s).
Proof. apply Relationship_call_fresh. Qed.

Lemma loads_registered (name : string) (s : State) (r : loc) :
  lookup name s = Some r -> loads name s = (inr r, s).
Proof.
  unfold lookup, loads, __new__, mbind, M_bind, bind, get_instances; simpl.
  intros ->. reflexivity.
Qed.

Lemma loads_fresh (name : string) (s : State) :
  lookup name s = None ->
  loads name s =
    (inr (length (heap s)), mkState (heap s ++ [None]) (_instances s)).
Proof.
  unfold lookup, loads, __new__, mbind, M_bind, bind, get_instances; simpl.
  intros ->. reflexivity.
Qed.

(** The adapter on a stanza that has an id. *)
Lemma from_obo_dict_id (d : stanza) (s : State) (id : string) :
  d !! "id" = Some id ->
  _from_obo_dict d s =
    match lookup id s with
    | Some r => (inr r, s)
    | None =>
        Relationship_call id
          (mkKwargs
             match d !! "is_antisymetric" with
             | Some x => Some (String.eqb (lower x) "false")
             | None => or_None (flag d "is_symmetric" "true")
             end
             (flag d "is_transitive" "true")
             (flag d "is_reflexive" "true")
             (Some (default "" (d !! "inverse_of")))
             None None None None) s
    end.
Proof.
  intros Hid. unfold _from_obo_dict, lookup. rewrite Hid.
  unfold mbind at 1. unfold M_bind, bind, get_instances at 1.
  cbv beta iota.
  destruct (OrderedDict.get id (_instances s)); reflexivity.
Qed.

(** The adapter either raises for want of an id, or returns the instance
    registered under the id, or constructs. *)
Lemma from_obo_dict_cases (d : stanza) (s : State) :
  (d !! "id" = None /\ _from_obo_dict d s = (inl (KeyError "id"), s)) \/
  (exists id r,
      d !! "id" = Some id /\ lookup id s = Some r /\
      _from_obo_dict d s = (inr r, s)) \/
  (exists id kw,
      d !! "id" = Some id /\ lookup id s = None /\
      kw_aliases kw = None /\ kw_direction kw = None /\
      _from_obo_dict d s = (inr (length (heap s)), constructed id kw s)).
Proof.
  destruct (d !! "id") as [id|] eqn:Hid.
  - right. rewrite (from_obo_dict_id _ _ _ Hid).
    destruct (lookup id s) as [r|] eqn:Hreg.
    + left. exists id, r. auto.
    + right. rewrite (Relationship_call_constructed _ _ _ Hreg).
      match goal with
      | |- context [constructed id ?kw s] => exists id, kw
      end.
      simpl. auto.
  - left. unfold _from_obo_dict. rewrite Hid. auto.
Qed.

(** After any call the state is the one before, or the one a first
    construction leaves, or the one before with a bare instance more. *)
Lemma perform_shape (q : request) (s : State) :
  perform q s = s \/
  (exists name kw, lookup name s = None /\
                   perform q s = constructed name kw s) \/
  perform q s = mkState (heap s ++ [None]) (_instances s).
Proof.
  destruct q as [name kw|d|p|r|r| | |r]; simpl.
  - destruct (lookup name s) as [r|] eqn:Hn.
    + left. rewrite (Relationship_call_registered _ _ _ _ Hn). reflexivity.
    + right; left. exists name, kw.
      rewrite (Relationship_call_constructed _ _ _ Hn). auto.
  - destruct (from_obo_dict_cases d s)
      as [[_ ->]|[(id & r & _ & _ & ->)|(id & kw & _ & Hn & _ & _ & ->)]];
      simpl; [left; reflexivity|left; reflexivity|].
    right; left. exists id, kw. auto.
  - destruct (lookup p s) as [r|] eqn:Hn.
    + left. rewrite (loads_registered _ _ _ Hn). reflexivity.
    + right; right. rewrite (loads_fresh _ _ Hn). reflexivity.
  - left. apply dumps_state.
  - left. apply complement_state.
  - left. apply (classify_state "topdown").
  - left. apply (classify_state "bottomup").
  - left. apply repr_state.
Qed.

Lemma attrs_app (h l : list instance) (d d' : OrderedDict.t) (r : loc)
    (rec : Relationship) :
  attrs r (mkState h d) = Some rec ->
  attrs r (mkState (h ++ l) d') = Some rec.
Proof.
  unfold attrs; simpl. intros H.
  destruct (h !! r) as [i|] eqn:Hi; [|discriminate].
  rewrite (lookup_app_l_Some _ _ _ _ Hi). exact H.
Qed.

Lemma initialised_app (h l : list instance) (d d' : OrderedDict.t) (r : loc) :
  initialised (mkState h d) r -> initialised (mkState (h ++ l) d') r.
Proof. intros [rec H]. exists rec. eapply attrs_app, H. Qed.

Lemma wf_constructed (name : string) (kw : kwargs) (s : State) :
  wf s -> wf (constructed name kw s).
Proof.
  destruct s as [h d]. intros [Hk Hv]. split.
  - apply NoDup_keys_alias_all, NoDup_keys_set, Hk.
  - set (s' := constructed name kw (mkState h d)).
    assert (Hnew : initialised s' (length h))
      by (eexists; apply attrs_fresh).
    apply (Forall_values_alias_all (initialised s')); [|exact Hnew].
    apply (Forall_values_set (initialised s')); [|exact Hnew].
    apply (Forall_impl _ _ _ Hv). intros r. apply initialised_app.
Qed.

Lemma perform_grows (q : request) (s : State) :
  heap s `prefix_of` heap (perform q s) /\
  OrderedDict.keys (_instances s)
    `prefix_of` OrderedDict.keys (_instances (perform q s)) /\
  (wf s -> wf (perform q s)).
Proof.
  destruct (perform_shape q s) as [->|[(name & kw & _ & ->)| ->]]; simpl.
  - split; [reflexivity|]. split; [reflexivity|auto].
  - split; [apply prefix_app_r; reflexivity|].
    split; [|apply wf_constructed].
    etrans; [apply (keys_set_prefix name (length (heap s)))|].
    apply keys_alias_all_prefix.
  - split; [apply prefix_app_r; reflexivity|]. split; [reflexivity|].
    destruct s as [h d]. intros [Hk Hv]. split; [exact Hk|]. simpl in *.
    apply (Forall_impl _ _ _ Hv). intros r. apply initialised_app.
Qed.

Lemma perform_all_grows (qs : list request) (s : State) :
  heap s `prefix_of` heap (perform_all qs s) /\
  OrderedDict.keys (_instances s)
    `prefix_of` OrderedDict.keys (_instances (perform_all qs s)) /\
  (wf s -> wf (perform_all qs s)).
Proof.
  revert s. induction qs as [|q qs IH]; intros s; simpl.
  - split; [reflexivity|]. split; [reflexivity|auto].
  - destruct (perform_grows q s) as (Hh & Hk & Hw).
    destruct (IH (perform q s)) as (Hh' & Hk' & Hw').
    split; [etrans; eassumption|]. split; [etrans; eassumption|auto].
Qed.

(** ** Construction, seen from the registry *)

(** X1.  The registry after a first construction: the name and every alias
    denote the new instance, every other key denotes what it denoted
    before, and the instance is one that did not exist before. *)
Theorem construction_registry (s : State) (N : string) (kw : kwargs) :
  lookup N s = None ->
  exists r s',
    Relationship_call N kw s = (inr r, s') /\
    heap s !! r = None /\
    forall k,
      lookup k s' =
        if bool_decide (k = N \/ k ∈ or_list (kw_aliases kw)) then Some r
        else lookup k s.
Proof.
  intros HN. rewrite (Relationship_call_constructed _ _ _ HN).
  eexists _, _. split; [reflexivity|].
  split; [apply lookup_ge_None_2; lia|].
  intros k. unfold lookup, constructed; simpl.
  rewrite get_alias_all, get_set.
  destruct (decide (k ∈ or_list (kw_aliases kw))) as [Hin|Hnin].
  - rewrite !bool_decide_eq_true_2; auto.
  - rewrite (bool_decide_eq_false_2 _ Hnin).
    destruct (String.eqb_spec k N) as [->|Hne].
    + rewrite bool_decide_eq_true_2; auto.
    + rewrite bool_decide_eq_false_2; [reflexivity|]. intros [?|?]; auto.
Qed.

Lemma construction_registry_witness :
  lookup "part_of" (perform_all
     [Construct "is_a" kw_is_a; Construct "can_be" kw_can_be;
      Construct "has_part" kw_has_part] initial) = None /\
  exists r s',
    Relationship_call "part_of" kw_part_of (perform_all
     [Construct "is_a" kw_is_a; Construct "can_be" kw_can_be;
      Construct "has_part" kw_has_part] initial) = (inr r, s') /\
    lookup "is_part" s' = Some r /\
    lookup "part_of" s' = Some r /\
    lookup "is_a" s' = Some 0.
Proof.
  set (s := perform_all _ initial).
  assert (H : lookup "part_of" s = None) by reflexivity.
  split; [exact H|].
  destruct (construction_registry s "part_of" kw_part_of H)
    as (r & s' & Hrun & _ & Hk).
  exists r, s'. split; [exact Hrun|].
  rewrite !Hk. repeat split.
Defined.

(** ** Invariants over arbitrary clients *)

(** X2.  No call ever changes an instance that exists: after any sequence
    of calls the heap is the former heap followed by new instances, and an
    initialised instance has the attributes it had. *)
Theorem instances_never_modified (qs : list request) (s : State) (r : loc)
    (rec : Relationship) :
  attrs r s = Some rec ->
  heap s `prefix_of` heap (perform_all qs s) /\
  attrs r (perform_all qs s) = Some rec.
Proof.
  intros Hr. destruct (perform_all_grows qs s) as ([l Hl] & _ & _).
  split; [exists l; exact Hl|].
  destruct s as [h d], (perform_all qs (mkState h d)) as [h' d'].
  simpl in Hl; subst h'. eapply attrs_app, Hr.
Qed.

Lemma instances_never_modified_witness :
  attrs 0 seeded = Some (init_attrs "is_a" kw_is_a) /\
  attrs 0 (perform_all
     [Construct "is_a" kw_can_be; Construct "thief" kw_alias_is_a;
      FromOboDict stanza_not_symmetric; Loads "is_a"; Loads "unknown"]
     seeded) = Some (init_attrs "is_a" kw_is_a).
Proof.
  assert (H : attrs 0 seeded = Some (init_attrs "is_a" kw_is_a))
    by reflexivity.
  split; [exact H|].
  exact (proj2 (instances_never_modified _ seeded 0 _ H)).
Defined.

(** X3.  No call ever removes or reorders a key of the registry: after any
    sequence of calls the keys are the former keys, in the same order,
    followed by new ones. *)
Theorem registry_keys_only_grow (qs : list request) (s : State) :
  OrderedDict.keys (_instances s)
    `prefix_of` OrderedDict.keys (_instances (perform_all qs s)).
Proof. apply perform_all_grows. Qed.

(** X4.  Well-formedness is kept by every call: from a registry whose
    values are all initialised instances, no sequence of constructions,
    adapter calls, unpicklings and queries leads to a registry with a bare
    or dangling value. *)
Theorem wf_preserved (qs : list request) (s : State) :
  wf s -> wf (perform_all qs s).
Proof. apply perform_all_grows. Qed.

Lemma wf_preserved_witness :
  wf initial /\
  wf (perform_all
        [Construct "is_a" kw_is_a; Construct "thief" kw_alias_is_a;
         Loads "unknown"; FromOboDict stanza_not_symmetric; Topdown]
        initial).
Proof.
  assert (H : wf initial).
  { apply (bool_decide_unpack (wf initial)). vm_compute. exact I. }
  split; [exact H|]. exact (wf_preserved _ initial H).
Defined.

(** X5.  The queries only read: [topdown], [bottomup], pickling and
    [__repr__] leave heap and registry as they were in every state, also
    when they raise. *)
Theorem queries_read_only (s : State) (self : loc) :
  snd (topdown s) = s /\
  snd (bottomup s) = s /\
  snd (dumps self s) = s /\
  snd (__repr__ self s) = s.
Proof.
  split; [apply (classify_state "topdown")|].
  split; [apply (classify_state "bottomup")|].
  split; [apply dumps_state|apply repr_state].
Qed.

(** ** Classification on a well-formed registry *)

Lemma initialised_heap (s : State) (r : loc) :
  initialised s r -> exists rec, heap s !! r = Some (Some rec).
Proof.
  unfold initialised, attrs. intros [rec H]. exists rec.
  destruct (heap s !! r) as [[rec'|]|]; simpl in H; congruence.
Qed.

Lemma with_direction_wf (dir : string) (it : list loc) (s : State) :
  Forall (initialised s) it ->
  with_direction dir it s =
    (inr (filter (fun r => has_direction dir s r = true) it), s).
Proof.
  induction 1 as [|r it Hr _ IH]; simpl; [reflexivity|].
  destruct (initialised_heap _ _ Hr) as [rec Hrec].
  assert (Hd : has_direction dir s r = String.eqb (direction rec) dir).
  { unfold has_direction, attrs. rewrite Hrec. reflexivity. }
  unfold mbind, M_bind, bind, getattr. rewrite Hrec, IH.
  rewrite filter_cons.
  destruct (decide (has_direction dir s r = true)) as [Ht|Hf];
    rewrite Hd in *; simpl.
  - rewrite Ht. reflexivity.
  - apply not_true_is_false in Hf. rewrite Hf. reflexivity.
Qed.

Lemma classify_wf (dir : string) (s : State) :
  wf s ->
  (d ← get_instances;
   rs ← with_direction dir (OrderedDict.values d);
   ret (unique_everseen rs)) s =
    (inr (unique_everseen
            (filter (fun r => has_direction dir s r = true)
               (OrderedDict.values (_instances s)))), s).
Proof.
  intros [_ Hv]. unfold mbind, M_bind, bind, get_instances; simpl.
  rewrite (with_direction_wf _ _ _ Hv). reflexivity.
Qed.

Lemma elem_of_classified (dir : string) (s : State) (r : loc) :
  wf s ->
  r ∈ unique_everseen
        (filter (fun r => has_direction dir s r = true)
           (OrderedDict.values (_instances s))) <->
  exists k rec,
    lookup k s = Some r /\ attrs r s = Some rec /\ direction rec = dir.
Proof.
  intros [Hk Hv].
  destruct (unique_everseen_spec
    (filter (fun r => has_direction dir s r = true)
       (OrderedDict.values (_instances s)))) as (_ & _ & ->).
  rewrite list_elem_of_filter. unfold has_direction, lookup. split.
  - intros [Hdir Hin]. destruct (values_get_Some _ _ Hk Hin) as [k Hget].
    destruct (attrs r s) as [rec|]; [|discriminate].
    exists k, rec. apply String.eqb_eq in Hdir. auto.
  - intros (k & rec & Hget & -> & <-). rewrite String.eqb_refl.
    split; [reflexivity|]. eapply get_Some_values, Hget.
Qed.

(** X6.  On a well-formed registry [topdown()] and [bottomup()] return
    without raising and without changing the state; each result is free of
    duplicates and holds exactly the instances that some key denotes and
    whose direction is ['topdown'], respectively ['bottomup']; no instance
    is in both. *)
Theorem classification_spec (s : State) :
  wf s ->
  exists td bu,
    topdown s = (inr td, s) /\
    bottomup s = (inr bu, s) /\
    NoDup td /\ NoDup bu /\
    (forall r, r ∈ td <->
       exists k rec, lookup k s = Some r /\ attrs r s = Some rec /\
                     direction rec = "topdown") /\
    (forall r, r ∈ bu <->
       exists k rec, lookup k s = Some r /\ attrs r s = Some rec /\
                     direction rec = "bottomup") /\
    (forall r, r ∈ td -> r ∉ bu).
Proof.
  intros Hwf. eexists _, _.
  split; [apply (classify_wf "topdown" s Hwf)|].
  split; [apply (classify_wf "bottomup" s Hwf)|].
  split; [apply unique_everseen_spec|]. split; [apply unique_everseen_spec|].
  split; [intros r; apply elem_of_classified, Hwf|].
  split; [intros r; apply elem_of_classified, Hwf|].
  intros r (k & rec & _ & Hrec & Htd)%elem_of_classified
           (k' & rec' & _ & Hrec' & Hbu)%elem_of_classified; try exact Hwf.
  rewrite Hrec in Hrec'. injection Hrec' as <-.
  rewrite Htd in Hbu. discriminate.
Qed.

Lemma classification_spec_witness :
  wf seeded /\
  exists td bu,
    topdown seeded = (inr td, seeded) /\
    bottomup seeded = (inr bu, seeded) /\
    NoDup td /\ NoDup bu /\
    (forall r, r ∈ td <->
       exists k rec, lookup k seeded = Some r /\ attrs r seeded = Some rec /\
                     direction rec = "topdown") /\
    (forall r, r ∈ bu <->
       exists k rec, lookup k seeded = Some r /\ attrs r seeded = Some rec /\
                     direction rec = "bottomup") /\
    (forall r, r ∈ td -> r ∉ bu).
Proof.
  assert (H : wf seeded).
  { apply (bool_decide_unpack (wf seeded)). vm_compute. exact I. }
  split; [exact H|]. exact (classification_spec seeded H).
Defined.

(** ** Classification after a construction *)

Section ClassifyConstructed.

Import OrderedDict.

Lemma set_app_fresh (k : string) (v : loc) (d e : t) :
  get k d = None -> set k v (d ++ e)%list = (d ++ set k v e)%list.
Proof.
  induction d as [|[k0 v0] d IH]; simpl; [reflexivity|].
  destruct (String.eqb k k0); [discriminate|].
  intros H. rewrite (IH H). reflexivity.
Qed.

Lemma alias_all_app (v : loc) (als : list string) (d e : t) :
  Forall (fun a => get a d = None) als ->
  alias_all v als (d ++ e)%list = (d ++ alias_all v als e)%list.
Proof.
  intros Hall. revert e.
  induction Hall as [|a als Ha _ IH]; intros e; simpl; [reflexivity|].
  rewrite (set_app_fresh _ _ _ _ Ha). apply IH.
Qed.

Lemma alias_all_not_nil (v : loc) (als : list string) (e : t) :
  e <> [] -> alias_all v als e <> [].
Proof.
  revert e. induction als as [|a als IH]; intros e He; simpl; [exact He|].
  apply IH. destruct e as [|[k0 v0] e]; simpl; [discriminate|].
  destruct (String.eqb a k0); discriminate.
Qed.

(** With a free name and free aliases, the new entries come after the old
    ones, which are untouched, and all denote the new instance. *)
Lemma instances_constructed (name : string) (kw : kwargs) (s : State) :
  lookup name s = None ->
  Forall (fun a => lookup a s = None) (or_list (kw_aliases kw)) ->
  exists e,
    _instances (constructed name kw s) = (_instances s ++ e)%list /\
    e <> [] /\ Forall (fun r => r = length (heap s)) (values e).
Proof.
  unfold lookup. intros Hn Hal.
  exists (alias_all (length (heap s)) (or_list (kw_aliases kw))
            [(name, length (heap s))]).
  split; [|split].
  - simpl. rewrite <- (alias_all_app _ _ _ _ Hal). f_equal.
    rewrite <- (app_nil_r (_instances s)) at 1.
    apply (set_app_fresh _ _ _ [] Hn).
  - apply alias_all_not_nil. discriminate.
  - apply (Forall_values_alias_all (fun r => r = length (heap s)));
      [|reflexivity].
    repeat constructor.
Qed.

End ClassifyConstructed.

Lemma unique_everseen_from_seen (seen : gset loc) (it : list loc) :
  Forall (fun x => x ∈ seen) it -> unique_everseen_from seen it = [].
Proof.
  induction 1 as [|x it Hx _ IH]; simpl; [reflexivity|].
  rewrite decide_True by exact Hx. exact IH.
Qed.

Lemma unique_everseen_from_app_new (seen : gset loc) (l t : list loc)
    (x : loc) :
  x ∉ seen -> x ∉ l -> t <> [] -> Forall (fun y => y = x) t ->
  unique_everseen_from seen (l ++ t)%list =
    (unique_everseen_from seen l ++ [x])%list.
Proof.
  intros Hseen Hl Ht Hall. revert seen Hseen.
  induction l as [|y l IH]; intros seen Hseen; simpl.
  - destruct Hall as [|x' t Hx' Hall]; [contradiction|]. subst x'. simpl.
    rewrite decide_False by exact Hseen. f_equal.
    apply unique_everseen_from_seen.
    apply (Forall_impl _ _ _ Hall). intros y ->.
    apply elem_of_union_l, elem_of_singleton. reflexivity.
  - apply not_elem_of_cons in Hl as [Hxy Hl].
    destruct (decide (y ∈ seen)); [apply (IH Hl), Hseen|].
    simpl. f_equal. apply (IH Hl).
    rewrite not_elem_of_union, not_elem_of_singleton. auto.
Qed.

Lemma filter_const {A} (P : A -> Prop) `{!forall x, Decision (P x)}
    (x : A) (t : list A) :
  Forall (fun y => y = x) t ->
  filter P t = if decide (P x) then t else [].
Proof.
  induction 1 as [|y t -> _ IH]; [destruct (decide (P x)); reflexivity|].
  rewrite filter_cons, IH. destruct (decide (P x)); reflexivity.
Qed.

Lemma has_direction_app (dir : string) (h l : list instance)
    (d d' : OrderedDict.t) (r : loc) :
  initialised (mkState h d) r ->
  has_direction dir (mkState (h ++ l)%list d') r =
    has_direction dir (mkState h d) r.
Proof.
  intros [rec Hrec]. unfold has_direction.
  rewrite (attrs_app h l d d' r rec Hrec), Hrec. reflexivity.
Qed.

Lemma filter_direction_app (dir : string) (h l : list instance)
    (d d' : OrderedDict.t) (it : list loc) :
  Forall (initialised (mkState h d)) it ->
  filter (fun r => has_direction dir (mkState (h ++ l)%list d') r = true) it =
    filter (fun r => has_direction dir (mkState h d) r = true) it.
Proof.
  induction 1 as [|r it Hr _ IH]; [reflexivity|].
  rewrite !filter_cons, IH, (has_direction_app dir h l d d' r Hr).
  reflexivity.
Qed.

(** The classified instances after a first construction with a free name
    and free aliases. *)
Lemma classified_constructed (dir name : string) (kw : kwargs) (s : State) :
  wf s ->
  lookup name s = None ->
  Forall (fun a => lookup a s = None) (or_list (kw_aliases kw)) ->
  unique_everseen
    (filter (fun r => has_direction dir (constructed name kw s) r = true)
       (OrderedDict.values (_instances (constructed name kw s)))) =
  (unique_everseen
     (filter (fun r => has_direction dir s r = true)
        (OrderedDict.values (_instances s))) ++
   if String.eqb (or_empty (kw_direction kw)) dir then [length (heap s)]
   else [])%list.
Proof.
  intros [Hk Hv] Hn Hal.
  destruct (instances_constructed name kw s Hn Hal) as (e & He1 & He & Hnew).
  assert (Hdir : forall d',
            has_direction dir
              (mkState (heap s ++ [Some (init_attrs name kw)]) d')
              (length (heap s)) =
            String.eqb (or_empty (kw_direction kw)) dir).
  { intros d'. unfold has_direction. rewrite attrs_fresh. reflexivity. }
  rewrite He1. unfold OrderedDict.values in *. rewrite map_app, filter_app.
  destruct s as [h d]. unfold constructed. cbn [heap _instances] in *.
  rewrite (filter_direction_app dir h _ d _ _ Hv).
  rewrite (filter_const _ _ _ Hnew).
  destruct (decide _) as [Ht|Hf]; rewrite Hdir in *.
  - rewrite Ht. apply unique_everseen_from_app_new.
    + apply not_elem_of_empty.
    + intros [_ Hin]%list_elem_of_filter.
      rewrite Forall_forall in Hv. destruct (Hv _ Hin) as [rec Hrec].
      unfold attrs in Hrec; cbn [heap] in Hrec.
      match type of Hrec with
      | mjoin ?x = _ => destruct x eqn:Hlen; [|discriminate]
      end.
      apply lookup_lt_Some in Hlen. exact (Nat.lt_irrefl _ Hlen).
    + intros Hnil. apply He. destruct e; [reflexivity|discriminate].
    + exact Hnew.
  - apply not_true_is_false in Hf. rewrite Hf, !app_nil_r. reflexivity.
Qed.

(** X7.  On a well-formed registry, a first construction under a free name
    with free aliases puts the new instance at the end of [topdown()] when
    its direction is ['topdown'], at the end of [bottomup()] when it is
    ['bottomup'], once, however many aliases it has; apart from that both
    results are what they were. *)
Theorem classification_after_construction (s : State) (N : string)
    (kw : kwargs) :
  wf s ->
  lookup N s = None ->
  Forall (fun a => lookup a s = None) (or_list (kw_aliases kw)) ->
  exists td bu r s',
    topdown s = (inr td, s) /\
    bottomup s = (inr bu, s) /\
    Relationship_call N kw s = (inr r, s') /\
    topdown s' =
      (inr (td ++ if String.eqb (or_empty (kw_direction kw)) "topdown"
                  then [r] else [])%list, s') /\
    bottomup s' =
      (inr (bu ++ if String.eqb (or_empty (kw_direction kw)) "bottomup"
                  then [r] else [])%list, s').
Proof.
  intros Hwf HN Hal.
  pose proof (wf_constructed N kw s Hwf) as Hwf'.
  eexists _, _, _, _.
  split; [apply (classify_wf "topdown" s Hwf)|].
  split; [apply (classify_wf "bottomup" s Hwf)|].
  split; [apply (Relationship_call_constructed _ _ _ HN)|].
  split.
  - etrans; [exact (classify_wf "topdown" _ Hwf')|].
    rewrite (classified_constructed "topdown" N kw s Hwf HN Hal).
    reflexivity.
  - etrans; [exact (classify_wf "bottomup" _ Hwf')|].
    rewrite (classified_constructed "bottomup" N kw s Hwf HN Hal).
    reflexivity.
Qed.

Lemma classification_after_construction_witness :
  wf seeded /\
  lookup "develops_from" seeded = None /\
  Forall (fun a => lookup a seeded = None)
    (or_list (kw_aliases kw_develops_from)) /\
  exists s',
    Relationship_call "develops_from" kw_develops_from seeded = (inr 6, s') /\
    topdown s' = (inr [1; 2; 6], s') /\
    bottomup s' = (inr [0; 3], s').
Proof.
  assert (H1 : wf seeded).
  { apply (bool_decide_unpack (wf seeded)). vm_compute. exact I. }
  assert (H2 : lookup "develops_from" seeded = None) by reflexivity.
  assert (H3 : Forall (fun a => lookup a seeded = None)
                 (or_list (kw_aliases kw_develops_from))).
  { repeat constructor. }
  split; [exact H1|]. split; [exact H2|]. split; [exact H3|].
  destruct (classification_after_construction seeded "develops_from"
              kw_develops_from H1 H2 H3)
    as (td & bu & r & s' & Htd & Hbu & Hrun & Htd' & Hbu').
  exists s'.
  assert (Er : r = 6).
  { rewrite (Relationship_call_constructed _ _ _ H2) in Hrun.
    injection Hrun as <- _. reflexivity. }
  assert (Etd : td = [1; 2]).
  { assert (Hc : topdown seeded = (inr [1; 2], seeded))
      by (vm_compute; reflexivity).
    rewrite Hc in Htd. injection Htd as <-. reflexivity. }
  assert (Ebu : bu = [0; 3]).
  { assert (Hc : bottomup seeded = (inr [0; 3], seeded))
      by (vm_compute; reflexivity).
    rewrite Hc in Hbu. injection Hbu as <-. reflexivity. }
  subst r td bu. split; [exact Hrun|]. split; [exact Htd'|exact Hbu'].
Defined.

(** X8.  Records made by the adapter are never classified: on a
    well-formed registry, [topdown()] and [bottomup()] return after
    [_from_obo_dict] what they returned before it, whatever the stanza. *)
Theorem adapter_not_classified (s : State) (d : stanza) :
  wf s ->
  fst (topdown (snd (_from_obo_dict d s))) = fst (topdown s) /\
  fst (bottomup (snd (_from_obo_dict d s))) = fst (bottomup s).
Proof.
  intros Hwf.
  destruct (from_obo_dict_cases d s)
    as [[_ ->]|[(id & r & _ & _ & ->)|(id & kw & _ & Hn & Hal & Hdir & ->)]];
    simpl; [split; reflexivity|split; reflexivity|].
  assert (Hfree : Forall (fun a => lookup a s = None)
                    (or_list (kw_aliases kw))).
  { rewrite Hal. constructor. }
  pose proof (wf_constructed id kw s Hwf) as Hwf'.
  pose proof (classified_constructed "topdown" id kw s Hwf Hn Hfree) as Htd.
  pose proof (classified_constructed "bottomup" id kw s Hwf Hn Hfree) as Hbu.
  rewrite Hdir in Htd, Hbu. simpl in Htd, Hbu.
  rewrite app_nil_r in Htd, Hbu.
  split.
  - etrans; [exact (f_equal fst (classify_wf "topdown" _ Hwf'))|].
    etrans; [|exact (eq_sym (f_equal fst (classify_wf "topdown" _ Hwf)))].
    simpl. rewrite Htd. reflexivity.
  - etrans; [exact (f_equal fst (classify_wf "bottomup" _ Hwf'))|].
    etrans; [|exact (eq_sym (f_equal fst (classify_wf "bottomup" _ Hwf)))].
    simpl. rewrite Hbu. reflexivity.
Qed.

Lemma adapter_not_classified_witness :
  wf seeded /\
  fst (topdown (snd (_from_obo_dict stanza_not_symmetric seeded)))
    = inr [1; 2] /\
  fst (bottomup (snd (_from_obo_dict stanza_not_symmetric seeded)))
    = inr [0; 3].
Proof.
  assert (H : wf seeded).
  { apply (bool_decide_unpack (wf seeded)). vm_compute. exact I. }
  split; [exact H|].
  exact (adapter_not_classified seeded stanza_not_symmetric H).
Defined.

(** ** The adapter *)

Lemma lookup_constructed_name (name : string) (kw : kwargs) (s : State) :
  lookup name (constructed name kw s) = Some (length (heap s)).
Proof.
  unfold lookup, constructed; simpl. rewrite get_alias_all, get_set_same.
  destruct (bool_decide _); reflexivity.
Qed.

(** X9.  The only way [_from_obo_dict] fails is a stanza without an id: it
    then raises [KeyError] and changes nothing.  With an id it returns an
    instance, and that instance is the one registered under the id
    afterwards. *)
Theorem adapter_outcome (d : stanza) (s : State) :
  match d !! "id" with
  | None => _from_obo_dict d s = (inl (KeyError "id"), s)
  | Some id =>
      exists r s', _from_obo_dict d s = (inr r, s') /\ lookup id s' = Some r
  end.
Proof.
  destruct (from_obo_dict_cases d s)
    as [[-> ->]|[(id & r & -> & Hr & ->)|(id & kw & -> & _ & _ & _ & ->)]].
  - reflexivity.
  - eauto.
  - eexists _, _. split; [reflexivity|]. apply lookup_constructed_name.
Qed.

(** X10.  What the adapter stores for an id that is not registered: the
    name is the id, the complementary name is the value of [inverse_of] or
    empty, reflexivity is whether [is_reflexive] reads ["true"] up to case
    or unknown without the key, and transitivity is that same value;
    prefix, direction and comment are empty and there is no alias. *)
Theorem adapter_fresh_fields (d : stanza) (s : State) (id : string) :
  d !! "id" = Some id ->
  lookup id s = None ->
  exists r s' rec,
    _from_obo_dict d s = (inr r, s') /\
    attrs r s' = Some rec /\
    obo_name rec = id /\
    complementary rec = default "" (d !! "inverse_of") /\
    reflexivity rec =
      (fun x => String.eqb (lower x) "true") <$> d !! "is_reflexive" /\
    transitivity rec =
      (fun x => String.eqb (lower x) "true") <$> d !! "is_reflexive" /\
    prefix rec = "" /\ direction rec = "" /\ comment rec = "" /\
    aliases rec = [].
Proof.
  intros Hid Hn. rewrite (from_obo_dict_id _ _ _ Hid), Hn.
  rewrite (Relationship_call_fresh _ _ _ Hn).
  eexists _, _, _. split; [reflexivity|]. split; [apply attrs_fresh|].
  unfold flag; simpl.
  repeat split; destruct (d !! "is_reflexive"); reflexivity.
Qed.

Lemma adapter_fresh_fields_witness :
  stanza_not_symmetric !! "id" = Some "overlaps" /\
  lookup "overlaps" seeded = None /\
  exists r s' rec,
    _from_obo_dict stanza_not_symmetric seeded = (inr r, s') /\
    attrs r s' = Some rec /\
    obo_name rec = "overlaps" /\
    direction rec = "".
Proof.
  assert (H1 : stanza_not_symmetric !! "id" = Some "overlaps")
    by (vm_compute; reflexivity).
  assert (H2 : lookup "overlaps" seeded = None) by reflexivity.
  split; [exact H1|]. split; [exact H2|].
  destruct (adapter_fresh_fields stanza_not_symmetric seeded "overlaps" H1 H2)
    as (r & s' & rec & Hrun & Hrec & Hname & _ & _ & _ & _ & Hdir & _).
  exists r, s', rec. auto.
Defined.

(** X11.  The [is_transitive] key of a stanza has no effect: adding it, or
    changing its value, changes neither what [_from_obo_dict] returns nor
    the state it leaves. *)
Theorem adapter_ignores_is_transitive (d : stanza) (v : string) (s : State) :
  _from_obo_dict (<["is_transitive" := v]> d) s = _from_obo_dict d s.
Proof.
  assert (Hne : forall k, k <> "is_transitive" ->
            (<["is_transitive" := v]> d) !! k = d !! k).
  { intros k Hk. apply lookup_insert_ne. congruence. }
  destruct (d !! "id") as [id|] eqn:Hid.
  - assert (Hid' : (<["is_transitive" := v]> d) !! "id" = Some id).
    { rewrite Hne by discriminate. exact Hid. }
    rewrite (from_obo_dict_id _ _ _ Hid), (from_obo_dict_id _ _ _ Hid').
    destruct (lookup id s) eqn:Hn; [reflexivity|].
    rewrite !(Relationship_call_fresh _ _ _ Hn).
    unfold init_attrs, flag; simpl.
    rewrite !Hne by discriminate. reflexivity.
  - unfold _from_obo_dict. rewrite Hne by discriminate.
    rewrite Hid. reflexivity.
Qed.

(** X12.  The adapter is idempotent per id: once a stanza with some id has
    been through it, any stanza with that id, whatever else it says,
    returns the same instance and leaves the state alone. *)
Theorem adapter_idempotent (d d' : stanza) (s : State) (id : string) :
  d !! "id" = Some id ->
  d' !! "id" = Some id ->
  exists r s1,
    _from_obo_dict d s = (inr r, s1) /\
    _from_obo_dict d' s1 = (inr r, s1).
Proof.
  intros Hid Hid'.
  destruct (from_obo_dict_cases d s)
    as [[Hnone _]|[(i & r & Hi & Hr & ->)|(i & kw & Hi & _ & _ & _ & ->)]];
    [congruence| |]; rewrite Hid in Hi; injection Hi as <-.
  - exists r, s. split; [reflexivity|].
    rewrite (from_obo_dict_id _ _ _ Hid'), Hr. reflexivity.
  - eexists _, _. split; [reflexivity|].
    rewrite (from_obo_dict_id _ _ _ Hid'), lookup_constructed_name.
    reflexivity.
Qed.

Lemma adapter_idempotent_witness :
  stanza_not_symmetric !! "id" = Some "overlaps" /\
  (<["is_symmetric" := "true"]> stanza_not_symmetric) !! "id"
    = Some "overlaps" /\
  exists r s1,
    _from_obo_dict stanza_not_symmetric seeded = (inr r, s1) /\
    _from_obo_dict (<["is_symmetric" := "true"]> stanza_not_symmetric) s1
      = (inr r, s1).
Proof.
  assert (H1 : stanza_not_symmetric !! "id" = Some "overlaps")
    by (vm_compute; reflexivity).
  assert (H2 : (<["is_symmetric" := "true"]> stanza_not_symmetric) !! "id"
               = Some "overlaps") by (vm_compute; reflexivity).
  split; [exact H1|]. split; [exact H2|].
  exact (adapter_idempotent _ _ seeded "overlaps" H1 H2).
Defined.

(** ** Instances without attributes *)

Lemma getattr_bare {A} (self : loc) (name : string)
    (proj : Relationship -> A) (s : State) :
  heap s !! self = Some None ->
  getattr self name proj s = (inl (AttributeError name), s).
Proof. unfold getattr. intros ->. reflexivity. Qed.

(** X13.  The instance that unpickling makes for an unknown name is of no
    use: [complement], pickling and [__repr__] raise [AttributeError] on
    it, and no later call ever gives it attributes. *)
Theorem bare_instance_unusable (s : State) (name : string) :
  lookup name s = None ->
  exists r s',
    loads name s = (inr r, s') /\
    complement r s' = (inl (AttributeError "complementary"), s') /\
    dumps r s' = (inl (AttributeError "obo_name"), s') /\
    __repr__ r s' = (inl (AttributeError "obo_name"), s') /\
    forall qs, heap (perform_all qs s') !! r = Some None.
Proof.
  intros Hn. rewrite (loads_fresh _ _ Hn).
  set (s' := mkState (heap s ++ [None]) (_instances s)).
  assert (Hbare : heap s' !! length (heap s) = Some None).
  { apply list_lookup_middle. reflexivity. }
  exists (length (heap s)), s'. split; [reflexivity|].
  unfold complement, dumps, __getnewargs__, __repr__, mbind, M_bind, bind.
  rewrite !(getattr_bare _ _ _ _ Hbare).
  split; [reflexivity|]. split; [reflexivity|]. split; [reflexivity|].
  intros qs. destruct (perform_all_grows qs s') as (Hpre & _ & _).
  eapply prefix_lookup_Some; [exact Hbare|exact Hpre].
Qed.

Lemma bare_instance_unusable_witness :
  lookup "unknown" seeded = None /\
  exists r s',
    loads "unknown" seeded = (inr r, s') /\
    complement r s' = (inl (AttributeError "complementary"), s') /\
    heap (perform_all [Construct "unknown" no_kwargs; Loads "unknown"] s')
      !! r = Some None.
Proof.
  assert (H : lookup "unknown" seeded = None) by reflexivity.
  split; [exact H|].
  destruct (bare_instance_unusable seeded "unknown" H)
    as (r & s' & Hrun & Hc & _ & _ & Hq).
  exists r, s'. split; [exact Hrun|]. split; [exact Hc|apply Hq].
Defined.

(** ** Display *)

Lemma repr_run (self : loc) (s : State) (rec : Relationship) :
  attrs self s = Some rec ->
  __repr__ self s =
    (inr (String.append "Relationship(" (String.append (obo_name rec) ")")),
     s).
Proof.
  unfold attrs, __repr__, mbind, M_bind, bind, getattr. intros H.
  destruct (heap s !! self) as [[rec'|]|]; simpl in H; try discriminate.
  injection H as ->. reflexivity.
Qed.

(** X14.  An instance shows its own name, not the key it was reached by:
    after a first construction of [N], asking for any of its aliases and
    printing the result gives ["Relationship(N)"]. *)
Theorem repr_through_alias (s : State) (N a : string) (kw kw' : kwargs) :
  lookup N s = None ->
  a ∈ or_list (kw_aliases kw) ->
  exists s1,
    (Relationship_call N kw;;
     r ← Relationship_call a kw';
     __repr__ r) s =
      (inr (String.append "Relationship(" (String.append N ")")), s1).
Proof.
  intros HN Ha. exists (constructed N kw s).
  assert (Halias : lookup a (constructed N kw s) = Some (length (heap s))).
  { unfold lookup, constructed; simpl. rewrite get_alias_all.
    rewrite bool_decide_eq_true_2 by exact Ha. reflexivity. }
  unfold mbind, M_bind, bind.
  rewrite (Relationship_call_constructed _ _ _ HN).
  rewrite (Relationship_call_registered _ _ _ _ Halias).
  apply (repr_run _ _ (init_attrs N kw)).
  unfold constructed. apply attrs_fresh.
Qed.

Lemma repr_through_alias_witness :
  lookup "part_of" initial = None /\
  "is_part" ∈ or_list (kw_aliases kw_part_of) /\
  exists s1,
    (Relationship_call "part_of" kw_part_of;;
     r ← Relationship_call "is_part" no_kwargs;
     __repr__ r) initial = (inr "Relationship(part_of)", s1).
Proof.
  assert (H1 : lookup "part_of" initial = None) by reflexivity.
  assert (H2 : "is_part" ∈ or_list (kw_aliases kw_part_of)) by left.
  split; [exact H1|]. split; [exact H2|].
  exact (repr_through_alias initial "part_of" "is_part" kw_part_of no_kwargs
           H1 H2).
Defined.

(** ** Complement of a declared pair *)

Lemma complement_run (s : State) (self c : loc) (rec : Relationship) :
  attrs self s = Some rec ->
  complementary rec <> "" ->
  lookup (complementary rec) s = Some c ->
  complement self s = (inr (Some c), s).
Proof.
  unfold attrs, lookup, complement, mbind, M_bind, bind, getattr,
    get_instances.
  intros H Hne Hc.
  destruct (heap s !! self) as [[rec'|]|]; simpl in H; try discriminate.
  injection H as ->.
  destruct (String.eqb_spec (complementary rec) ""); [contradiction|].
  simpl. rewrite Hc. reflexivity.
Qed.

Lemma attrs_constructed (name : string) (kw : kwargs) (s : State) (r : loc)
    (rec : Relationship) :
  attrs r s = Some rec -> attrs r (constructed name kw s) = Some rec.
Proof.
  destruct s as [h d]. unfold constructed. cbn [heap _instances].
  apply attrs_app.
Qed.

(** X15.  Two new records that name each other as complementary are each
    other's complement, provided neither claims the other's name as an
    alias: constructing [A] with complementary [B] and then [B] with
    complementary [A] makes [complement] send the first instance to the
    second and the second back to the first. *)
Theorem complement_of_declared_pair (s : State) (A B : string)
    (kwA kwB : kwargs) :
  lookup A s = None ->
  lookup B s = None ->
  A <> B -> A <> "" -> B <> "" ->
  kw_complementary kwA = Some B ->
  kw_complementary kwB = Some A ->
  B ∉ or_list (kw_aliases kwA) ->
  A ∉ or_list (kw_aliases kwB) ->
  exists a b s2,
    (a ← Relationship_call A kwA;
     b ← Relationship_call B kwB;
     ret (a, b)) s = (inr (a, b), s2) /\
    a <> b /\
    complement a s2 = (inr (Some b), s2) /\
    complement b s2 = (inr (Some a), s2).
Proof.
  intros HA HB Hne HA0 HB0 HcA HcB HalA HalB.
  set (s1 := constructed A kwA s).
  assert (HB1 : lookup B s1 = None).
  { unfold lookup, s1, constructed; simpl. rewrite get_alias_all, get_set.
    rewrite bool_decide_eq_false_2 by exact HalA.
    destruct (String.eqb_spec B A); [congruence|exact HB]. }
  assert (HA2 : lookup A (constructed B kwB s1) = Some (length (heap s))).
  { unfold lookup, constructed at 1; simpl. rewrite get_alias_all, get_set.
    rewrite bool_decide_eq_false_2 by exact HalB.
    destruct (String.eqb_spec A B); [congruence|].
    apply lookup_constructed_name. }
  assert (Hlen : length (heap s1) = S (length (heap s))).
  { unfold s1, constructed; simpl. rewrite length_app. simpl. lia. }
  exists (length (heap s)), (length (heap s1)), (constructed B kwB s1).
  split; [|split; [lia|split]].
  - unfold mbind, M_bind, bind.
    rewrite (Relationship_call_constructed _ _ _ HA).
    fold s1. rewrite (Relationship_call_constructed _ _ _ HB1). reflexivity.
  - apply (complement_run _ _ _ (init_attrs A kwA)).
    + apply attrs_constructed. unfold s1, constructed. apply attrs_fresh.
    + simpl. rewrite HcA. exact HB0.
    + simpl. rewrite HcA. simpl. apply lookup_constructed_name.
  - apply (complement_run _ _ _ (init_attrs B kwB)).
    + unfold constructed at 1. apply attrs_fresh.
    + simpl. rewrite HcB. exact HA0.
    + simpl. rewrite HcB. simpl. exact HA2.
Qed.

Lemma complement_of_declared_pair_witness :
  lookup "precedes" seeded = None /\
  lookup "preceded_by" seeded = None /\
  exists a b s2,
    (a ← Relationship_call "precedes" kw_precedes;
     b ← Relationship_call "preceded_by" kw_preceded_by;
     ret (a, b)) seeded = (inr (a, b), s2) /\
    a <> b /\
    complement a s2 = (inr (Some b), s2) /\
    complement b s2 = (inr (Some a), s2).
Proof.
  assert (H1 : lookup "precedes" seeded = None) by reflexivity.
  assert (H2 : lookup "preceded_by" seeded = None) by reflexivity.
  split; [exact H1|]. split; [exact H2|].
  apply (complement_of_declared_pair seeded "precedes" "preceded_by"
           kw_precedes kw_preceded_by H1 H2);
    try reflexivity; try discriminate;
    simpl; apply not_elem_of_nil.
Defined.

(** X16.  On a well-formed registry [complement] can be chained: called on
    an instance that some key denotes, it never raises [AttributeError],
    and an instance it returns is initialised and is itself denoted by a
    key. *)
Theorem complement_closed (s : State) (k : string) (r : loc) :
  wf s ->
  lookup k s = Some r ->
  match fst (complement r s) with
  | inr (Some c) => initialised s c /\ exists k', lookup k' s = Some c
  | inr None => True
  | inl (ValueError _) => True
  | inl _ => False
  end.
Proof.
  intros [_ Hv] Hk. rewrite Forall_forall in Hv.
  destruct (initialised_heap s r (Hv _ (get_Some_values _ _ _ Hk)))
    as [rec Hrec].
  unfold complement, mbind, M_bind, bind, getattr, get_instances, raise.
  rewrite Hrec.
  destruct (String.eqb (complementary rec) ""); simpl; [exact I|].
  destruct (OrderedDict.get (complementary rec) (_instances s)) as [c|] eqn:Hc;
    simpl; [|exact I].
  split; [apply Hv, (get_Some_values _ _ _ Hc)|].
  exists (complementary rec). exact Hc.
Qed.

Lemma complement_closed_witness :
  wf seeded /\
  lookup "is_part" seeded = Some 3 /\
  initialised seeded 2 /\ exists k', lookup k' seeded = Some 2.
Proof.
  assert (H1 : wf seeded).
  { apply (bool_decide_unpack (wf seeded)). vm_compute. exact I. }
  assert (H2 : lookup "is_part" seeded = Some 3) by reflexivity.
  split; [exact H1|]. split; [exact H2|].
  exact (complement_closed seeded "is_part" 3 H1 H2).
Defined.

(** ** Idempotent construction across other calls *)

Lemma attrs_perform_all (qs : list request) (s : State) (r : loc)
    (rec : Relationship) :
  attrs r s = Some rec -> attrs r (perform_all qs s) = Some rec.
Proof.
  intros Hr. destruct (perform_all_grows qs s) as ([l Hl] & _ & _).
  destruct s as [h d], (perform_all qs (mkState h d)) as [h' d'].
  simpl in Hl; subst h'. eapply attrs_app, Hr.
Qed.

Lemma lookup_constructed_other (N name : string) (kw : kwargs) (s : State)
    (r : loc) :
  lookup name s = None ->
  N ∉ or_list (kw_aliases kw) ->
  lookup N s = Some r ->
  lookup N (constructed name kw s) = Some r.
Proof.
  unfold lookup, constructed; simpl. intros Hname Hal HN.
  rewrite get_alias_all, get_set.
  rewrite bool_decide_eq_false_2 by exact Hal.
  destruct (String.eqb_spec N name) as [->|_]; [congruence|exact HN].
Qed.

(** A call that does not take [N] over leaves [N] to its instance. *)
Lemma lookup_perform (N : string) (q : request) (s : State) (r : loc) :
  steals N q s = false ->
  lookup N s = Some r ->
  lookup N (perform q s) = Some r.
Proof.
  intros Hq HN. destruct q as [name kw|d|p|self|self| | |self]; simpl in *.
  - destruct (lookup name s) as [r0|] eqn:Hname.
    + rewrite (Relationship_call_registered _ _ _ _ Hname). exact HN.
    + rewrite (Relationship_call_constructed _ _ _ Hname). simpl.
      apply bool_decide_eq_false in Hq.
      apply lookup_constructed_other; assumption.
  - destruct (from_obo_dict_cases d s)
      as [[_ ->]|[(id & r0 & _ & _ & ->)|(id & kw & _ & Hn & Hal & _ & ->)]];
      simpl; [exact HN|exact HN|].
    apply lookup_constructed_other; [exact Hn| |exact HN].
    rewrite Hal. apply not_elem_of_nil.
  - destruct (lookup p s) as [r0|] eqn:Hp.
    + rewrite (loads_registered _ _ _ Hp). exact HN.
    + rewrite (loads_fresh _ _ Hp). exact HN.
  - rewrite dumps_state. exact HN.
  - rewrite complement_state. exact HN.
  - rewrite (classify_state "topdown"). exact HN.
  - rewrite (classify_state "bottomup"). exact HN.
  - rewrite repr_state. exact HN.
Qed.

Lemma lookup_perform_all (N : string) (qs : list request) (s : State)
    (r : loc) :
  never_stolen N qs s = true ->
  lookup N s = Some r ->
  lookup N (perform_all qs s) = Some r.
Proof.
  revert s. induction qs as [|q qs IH]; intros s Hns HN; simpl in *.
  - exact HN.
  - apply andb_true_iff in Hns as [Hq Hns].
    apply negb_true_iff in Hq.
    apply IH; [exact Hns|]. apply lookup_perform; assumption.
Qed.

(** C1, as stated, fails: a request for ["is_a"], then a request for another
    name that lists ["is_a"] among its aliases, then a second request for
    ["is_a"]: the second request returns another instance than the first,
    with other fields, and the registry entry of ["is_a"] has changed. *)
Lemma construction_not_idempotent_across_alias :
  let s1 := snd (Relationship_call "is_a" kw_is_a initial) in
  let s2 := snd (Relationship_call "stolen" kw_alias_is_a s1) in
  Relationship_call "is_a" kw_is_a initial = (inr 0, s1) /\
  Relationship_call "stolen" kw_alias_is_a s1 = (inr 1, s2) /\
  Relationship_call "is_a" kw_can_be s2 = (inr 1, s2) /\
  direction <$> attrs 0 s1 = Some "bottomup" /\
  direction <$> attrs 1 s2 = Some "" /\
  lookup "is_a" s2 <> lookup "is_a" s1.
Proof.
  do 5 (split; [vm_compute; reflexivity|]).
  vm_compute. discriminate.
Qed.

(** C1, amended.  Idempotent construction: a first request for a name [N]
    returns an instance [r] that is then registered under [N], with the
    attributes that request stored when [N] was new.  After any run of
    further calls in which no newly constructed record lists [N] among its
    aliases, a later request for [N], whatever its arguments, returns the
    same [r] and changes nothing: its arguments are discarded, the
    registry entry of [N] is still [r], and the attributes of [r] are
    those it had after the first request. *)
Theorem construction_idempotent_unless_aliased (s : State) (N : string)
    (kw1 kw2 : kwargs) (qs : list request) :
  never_stolen N qs (snd (Relationship_call N kw1 s)) = true ->
  exists r s1,
    Relationship_call N kw1 s = (inr r, s1) /\
    lookup N s1 = Some r /\
    match lookup N s with
    | None => attrs r s1 = Some (init_attrs N kw1)
    | Some r0 => r = r0 /\ s1 = s
    end /\
    Relationship_call N kw2 (perform_all qs s1)
      = (inr r, perform_all qs s1) /\
    lookup N (perform_all qs s1) = Some r /\
    forall rec, attrs r s1 = Some rec ->
                attrs r (perform_all qs s1) = Some rec.
Proof.
  intros Hns.
  assert (Hfirst : exists r s1,
    Relationship_call N kw1 s = (inr r, s1) /\
    lookup N s1 = Some r /\
    match lookup N s with
    | None => attrs r s1 = Some (init_attrs N kw1)
    | Some r0 => r = r0 /\ s1 = s
    end).
  { destruct (lookup N s) as [r0|] eqn:HN.
    - exists r0, s.
      rewrite (Relationship_call_registered _ _ _ _ HN). auto.
    - exists (length (heap s)), (constructed N kw1 s).
      rewrite (Relationship_call_constructed _ _ _ HN).
      split; [reflexivity|]. split; [apply lookup_constructed_name|].
      unfold constructed. apply attrs_fresh. }
  destruct Hfirst as (r & s1 & Hrun & HN1 & Hfix).
  rewrite Hrun in Hns. simpl in Hns.
  pose proof (lookup_perform_all N qs s1 r Hns HN1) as HN2.
  exists r, s1. split; [exact Hrun|]. split; [exact HN1|].
  split; [exact Hfix|].
  split; [apply Relationship_call_registered, HN2|].
  split; [exact HN2|].
  intros rec. apply attrs_perform_all.
Qed.

Lemma construction_idempotent_unless_aliased_witness :
  never_stolen "is_a"
    [Construct "can_be" kw_can_be; Construct "part_of" kw_part_of;
     FromOboDict stanza_not_symmetric; Loads "unknown";
     Construct "is_a" kw_alias_is_a; Topdown]
    (snd (Relationship_call "is_a" kw_is_a initial)) = true /\
  exists r s1,
    Relationship_call "is_a" kw_is_a initial = (inr r, s1) /\
    lookup "is_a" s1 = Some r /\
    Relationship_call "is_a" kw_topdown
      (perform_all
         [Construct "can_be" kw_can_be; Construct "part_of" kw_part_of;
          FromOboDict stanza_not_symmetric; Loads "unknown";
          Construct "is_a" kw_alias_is_a; Topdown] s1)
      = (inr r,
         perform_all
           [Construct "can_be" kw_can_be; Construct "part_of" kw_part_of;
            FromOboDict stanza_not_symmetric; Loads "unknown";
            Construct "is_a" kw_alias_is_a; Topdown] s1).
Proof.
  set (qs := [Construct "can_be" kw_can_be; Construct "part_of" kw_part_of;
              FromOboDict stanza_not_symmetric; Loads "unknown";
              Construct "is_a" kw_alias_is_a; Topdown]).
  assert (H : never_stolen "is_a" qs
                (snd (Relationship_call "is_a" kw_is_a initial)) = true)
    by (vm_compute; reflexivity).
  split; [exact H|].
  destruct (construction_idempotent_unless_aliased initial "is_a" kw_is_a
              kw_topdown qs H) as (r & s1 & Hrun & HN & _ & Hlater & _).
  exists r, s1. split; [exact Hrun|]. split; [exact HN|exact Hlater].
Defined.

(** The proviso is what the failing run lacks. *)
Example stolen_run_excluded :
  never_stolen "is_a" [Construct "stolen" kw_alias_is_a]
    (snd (Relationship_call "is_a" kw_is_a initial)) = false.
Proof. vm_compute. reflexivity. Qed.
